(** * Text cleaners of the Tacotron 2 front end

    A shallow embedding of
    [codes/models/audio/tts/tacotron2/text/cleaners.py] and the
    properties of its cleaning pipelines.

    A Python [str] is a sequence of Unicode code points; it is modelled
    as a list of integers.  The calls into Python's own libraries are
    modelled as follows:
    - [re.sub] for the three patterns the module compiles, by a small
      matcher ([re_match]) and the left-to-right substitution loop
      ([re_sub]);
    - [str.replace] and [str.strip] by [str_replace] and [strip];
    - the parts that need the Unicode character database
      ([unicodedata.normalize], [str.lower], the alphanumeric test behind
      [\b], the lower-casing behind [re.IGNORECASE]) and the two
      collaborators that are not part of the module ([unidecode],
      [normalize_numbers]) are the fields of the class [Runtime]. *)

From Stdlib Require Import ZArith List Bool Lia String Ascii.
Import ListNotations.
Local Open Scope Z_scope.

(** ** Strings *)

Abbreviation char := Z (only parsing).
Abbreviation str := (list Z) (only parsing).

(** String literals of the source file are UTF-8; [lit] decodes one into
    its code points. *)
Fixpoint utf8_bytes (s : string) : list Z :=
  match s with
  | EmptyString => []
  | String a s' => Z.of_N (N_of_ascii a) :: utf8_bytes s'
  end.

Fixpoint utf8_decode (need : nat) (acc : Z) (bs : list Z) : str :=
  match bs with
  | [] => []
  | b :: bs' =>
    match need with
    | S k =>
      let acc' := Z.lor (Z.shiftl acc 6) (Z.land b 63) in
      match k with
      | O => acc' :: utf8_decode 0 0 bs'
      | S _ => utf8_decode k acc' bs'
      end
    | O =>
      if b <? 128 then b :: utf8_decode 0 0 bs'
      else if b <? 224 then utf8_decode 1 (Z.land b 31) bs'
      else if b <? 240 then utf8_decode 2 (Z.land b 15) bs'
      else utf8_decode 3 (Z.land b 7) bs'
    end
  end.

Definition lit (s : string) : str := utf8_decode 0 0 (utf8_bytes s).

(** The double-quote character, U+0022. *)
Definition dquote : char := 0x22.

(** ** Character classes *)

Definition in_range (lo hi c : char) : bool := (lo <=? c) && (c <=? hi).

Definition is_ascii (c : char) : bool := in_range 0 127 c.

Definition ascii_upper (c : char) : bool := in_range 65 90 c.

Definition ascii_letter (c : char) : bool :=
  in_range 65 90 c || in_range 97 122 c.

Definition ascii_alnum (c : char) : bool :=
  in_range 48 57 c || ascii_letter c.

Definition ascii_lower (c : char) : char :=
  if ascii_upper c then c + 32 else c.

(** Whitespace as [\s] of a [str] pattern and [str.strip()] see it
    (CPython's [Py_UNICODE_ISSPACE]). *)
Definition is_space (c : char) : bool :=
  in_range 0x09 0x0D c || in_range 0x1C 0x20 c || (c =? 0x85) || (c =? 0xA0)
  || (c =? 0x1680) || in_range 0x2000 0x200A c || (c =? 0x2028)
  || (c =? 0x2029) || (c =? 0x202F) || (c =? 0x205F) || (c =? 0x3000).

(** Code points that [unicodedata.normalize("NFKC", _)] leaves alone
    wherever they stand: ASCII and the Arabic letters U+0621..U+064A have
    the quick-check value Yes and combining class 0. *)
Definition nfkc_inert (c : char) : bool :=
  is_ascii c || in_range 0x0621 0x064A c.

(** ** What the module takes from its environment *)

Class Runtime := {
  (** [unicodedata.normalize("NFKC", text)] *)
  unicodedata_normalize_NFKC : str -> str;
  (** [text.lower()] *)
  str_lower : str -> str;
  (** [ch.isalnum()], the test behind [\w] and [\b] *)
  unicode_isalnum : char -> bool;
  (** the simple lower-case mapping [re.IGNORECASE] applies to a
      character of the text *)
  unicode_tolower : char -> char;
  (** [unidecode.unidecode] *)
  unidecode : str -> str;
  (** [normalize_numbers] of the sibling module [numbers] *)
  normalize_numbers : str -> str
}.

(** A runtime that knows ASCII only; it satisfies every assumption made
    below about the real one. *)
Definition ascii_runtime : Runtime := {|
  unicodedata_normalize_NFKC := fun s => s;
  str_lower := map ascii_lower;
  unicode_isalnum := ascii_alnum;
  unicode_tolower := ascii_lower;
  unidecode := filter is_ascii;
  normalize_numbers := fun s => s
|}.

(** ** Regular expressions

    The three patterns of the module are a run of whitespace [\s+], one
    character of the range U+064B..U+065F, and [\b<stem>\.] under
    [re.IGNORECASE].  None of them matches the empty string. *)

Inductive atom :=
| WordBoundary                 (* \b *)
| Literal (c : char)           (* a character that has no case *)
| LiteralIgnore (c : char)     (* a lower-case letter under IGNORECASE *)
| InRange (lo hi : char).      (* [lo-hi] *)

Inductive regex :=
| Seq (atoms : list atom)      (* the atoms one after the other *)
| Plus (cls : char -> bool).   (* one or more characters of a class, greedy *)

Section Regex.
Context {R : Runtime}.

Definition is_word (c : char) : bool := unicode_isalnum c || (c =? 0x5F).

Definition is_word_opt (c : option char) : bool :=
  match c with
  | Some c => is_word c
  | None => false
  end.

(** The compiler pairs a letter with the other letters that share its
    upper case: i with dotless i (U+0131), s with long s (U+017F). *)
Definition case_fix (p c : char) : bool :=
  ((p =? 0x69) && (c =? 0x131)) || ((p =? 0x73) && (c =? 0x17F)).

Definition ignore_eq (p c : char) : bool :=
  let l := unicode_tolower c in (l =? p) || case_fix p l.

Definition accepts (a : atom) (c : char) : bool :=
  match a with
  | WordBoundary => false
  | Literal p => c =? p
  | LiteralIgnore p => ignore_eq p c
  | InRange lo hi => in_range lo hi c
  end.

(** [match_seq atoms prev s]: the number of characters of [s] the atoms
    match from its start, [prev] being the character before. *)
Fixpoint match_seq (atoms : list atom) (prev : option char) (s : str)
  : option nat :=
  match atoms with
  | [] => Some 0%nat
  | WordBoundary :: atoms' =>
    if xorb (is_word_opt prev) (is_word_opt (hd_error s))
    then match_seq atoms' prev s
    else None
  | a :: atoms' =>
    match s with
    | [] => None
    | c :: s' =>
      if accepts a c
      then option_map S (match_seq atoms' (Some c) s')
      else None
    end
  end.

Fixpoint run_length (cls : char -> bool) (s : str) : nat :=
  match s with
  | [] => 0%nat
  | c :: s' => if cls c then S (run_length cls s') else 0%nat
  end.

Definition re_match (r : regex) (prev : option char) (s : str) : option nat :=
  match r with
  | Seq atoms => match_seq atoms prev s
  | Plus cls =>
    match run_length cls s with
    | O => None
    | n => Some n
    end
  end.

(** [re.sub(r, repl, s)]: scan from the left; where the pattern matches,
    emit [repl] and go on after the match; elsewhere copy the character.
    [skip] counts the characters of a match still to pass over. *)
Fixpoint re_sub_from (r : regex) (repl : str) (prev : option char)
    (skip : nat) (s : str) : str :=
  match s with
  | [] => []
  | c :: s' =>
    match skip with
    | S k => re_sub_from r repl (Some c) k s'
    | O =>
      match re_match r prev s with
      | Some (S n) => repl ++ re_sub_from r repl (Some c) n s'
      | _ => c :: re_sub_from r repl (Some c) 0 s'
      end
    end
  end.

Definition re_sub (r : regex) (repl : str) (s : str) : str :=
  re_sub_from r repl None 0 s.

End Regex.

(** [re.compile('\\b%s\\.' % stem, re.IGNORECASE)] for a stem of
    lower-case letters. *)
Definition compile_abbreviation (stem : str) : regex :=
  Seq (WordBoundary :: map LiteralIgnore stem ++ [Literal 0x2E]).

(** ** [str.replace] and [str.strip] *)

Fixpoint starts_with (old s : str) : bool :=
  match old, s with
  | [], _ => true
  | _ :: _, [] => false
  | a :: old', c :: s' => (a =? c) && starts_with old' s'
  end.

Fixpoint replace_from (old new : str) (skip : nat) (s : str) : str :=
  match s with
  | [] => []
  | c :: s' =>
    match skip with
    | S k => replace_from old new k s'
    | O =>
      if starts_with old s
      then new ++ replace_from old new (List.length old - 1) s'
      else c :: replace_from old new 0 s'
    end
  end.

(** [s.replace(old, new)]; an empty [old] matches before every character
    and at the end. *)
Definition str_replace (old new s : str) : str :=
  match old with
  | [] => new ++ flat_map (fun c => c :: new) s
  | _ :: _ => replace_from old new 0 s
  end.

Fixpoint lstrip (s : str) : str :=
  match s with
  | [] => []
  | c :: s' => if is_space c then lstrip s' else s
  end.

Fixpoint rstrip (s : str) : str :=
  match s with
  | [] => []
  | c :: s' =>
    match rstrip s' with
    | [] => if is_space c then [] else [c]
    | r => c :: r
    end
  end.

Definition strip (s : str) : str := rstrip (lstrip s).

(** ** The module [cleaners] *)

(** Regular expression matching whitespace. *)
Definition _whitespace_re : regex := Plus is_space.

(** List of (regular expression, replacement) pairs for abbreviations. *)
Definition _abbreviations : list (regex * str) :=
  map (fun x => (compile_abbreviation (fst x), snd x))
    [ (lit "mrs", lit "misess");
      (lit "mr", lit "mister");
      (lit "dr", lit "doctor");
      (lit "st", lit "saint");
      (lit "co", lit "company");
      (lit "jr", lit "junior");
      (lit "maj", lit "major");
      (lit "gen", lit "general");
      (lit "drs", lit "doctors");
      (lit "rev", lit "reverend");
      (lit "lt", lit "lieutenant");
      (lit "hon", lit "honorable");
      (lit "sgt", lit "sergeant");
      (lit "capt", lit "captain");
      (lit "esq", lit "esquire");
      (lit "ltd", lit "limited");
      (lit "col", lit "colonel");
      (lit "ft", lit "fort") ].

(** Dictionary for common Arabic abbreviation expansions; a [dict] is
    iterated in the order of insertion, and the keys are distinct. *)
Definition ARABIC_ABBREVIATIONS : list (str * str) :=
  [ (lit "د.", lit "دكتور");
    (lit "أ.د", lit "أستاذ دكتور");
    (lit "م.", lit "مهندس");
    (lit "كجم", lit "كيلوغرام");
    (lit "كم", lit "كيلومتر");
    (lit "دولار", lit "دولار أمريكي") ].

(** The pattern of [remove_diacritics], the range U+064B..U+065F. *)
Definition arabic_diacritics : regex := Seq [InRange 0x064B 0x065F].

Section Cleaners.
Context {R : Runtime}.

Definition remove_diacritics (text : str) : str :=
  re_sub arabic_diacritics [] text.

(** The loop [for abbr, full in ARABIC_ABBREVIATIONS.items()] of
    [normalize_arabic_text]. *)
Definition expand_arabic (text : str) : str :=
  fold_left (fun text e => str_replace (fst e) (snd e) text)
    ARABIC_ABBREVIATIONS text.

Definition normalize_arabic_text (text : str) : str :=
  let text := unicodedata_normalize_NFKC text in
  let text := remove_diacritics text in
  let text := expand_arabic text in
  let text := re_sub (Plus is_space) (lit " ") text in
  let text := str_replace [dquote] [] text in
  strip text.

Definition expand_abbreviations (text : str) : str :=
  fold_left (fun text e => re_sub (fst e) (snd e) text) _abbreviations text.

Definition expand_numbers (text : str) : str := normalize_numbers text.

Definition lowercase (text : str) : str := str_lower text.

Definition collapse_whitespace (text : str) : str :=
  re_sub _whitespace_re (lit " ") text.

Definition convert_to_ascii (text : str) : str := unidecode text.

Definition basic_cleaners (text : str) : str :=
  let text := lowercase text in
  let text := collapse_whitespace text in
  text.

Definition transliteration_cleaners (text : str) : str :=
  let text := convert_to_ascii text in
  let text := lowercase text in
  let text := collapse_whitespace text in
  text.

Definition english_cleaners (text : str) : str :=
  normalize_arabic_text text.

End Cleaners.

(** ** Descriptions used in the statements *)

(** Every run of characters of [cls] replaced by [repl]; [in_run] tells
    that the character before belonged to a run. *)
Fixpoint squeeze (cls : char -> bool) (repl : str) (in_run : bool) (s : str)
  : str :=
  match s with
  | [] => []
  | c :: s' =>
    if cls c
    then (if in_run then squeeze cls repl true s'
          else repl ++ squeeze cls repl true s')
    else c :: squeeze cls repl false s'
  end.

Definition is_diacritic (c : char) : bool := in_range 0x064B 0x065F c.

Definition no_diacritic (s : str) : bool :=
  forallb (fun c => negb (is_diacritic c)) s.

Definition no_dquote (s : str) : bool :=
  forallb (fun c => negb (c =? dquote)) s.

(** Neither the first nor the last character is whitespace. *)
Definition no_outer_space (s : str) : bool :=
  match s with
  | [] => true
  | c :: _ => negb (is_space c) && negb (is_space (last s c))
  end.

(** No two whitespace characters stand side by side. *)
Fixpoint no_space_run (s : str) : bool :=
  match s with
  | [] => true
  | c :: s' =>
    match s' with
    | [] => true
    | d :: _ => negb (is_space c && is_space d) && no_space_run s'
    end
  end.

(** ASCII letters and single spaces, a letter after each space and at
    both ends; [after_space] tells that a letter is due. *)
Fixpoint single_spaced (after_space : bool) (s : str) : bool :=
  match s with
  | [] => negb after_space
  | c :: s' =>
    if c =? 32 then negb after_space && single_spaced true s'
    else ascii_letter c && single_spaced false s'
  end.

Definition plain_words (s : str) : bool := single_spaced true s.

(** A runtime with other answers for what only [expand_abbreviations]
    (the alphanumeric test and the lower-casing of its patterns) and
    [expand_numbers] ask of it. *)
Definition with_expanders (isalnum : char -> bool) (tolower : char -> char)
    (numbers : str -> str) (R : Runtime) : Runtime := {|
  unicodedata_normalize_NFKC := @unicodedata_normalize_NFKC R;
  str_lower := @str_lower R;
  unicode_isalnum := isalnum;
  unicode_tolower := tolower;
  unidecode := @unidecode R;
  normalize_numbers := numbers
|}.

(** [p] stands somewhere in [s]. *)
Fixpoint occurs (p s : str) : bool :=
  starts_with p s ||
  match s with
  | [] => false
  | _ :: s' => occurs p s'
  end.

(** The scan of [str.replace] step by step: [Some c] where it copies the
    character [c], [None] where it writes the replacement. *)
Fixpoint scan_steps (old : str) (skip : nat) (s : str) : list (option Z) :=
  match s with
  | [] => []
  | c :: s' =>
    match skip with
    | S k => scan_steps old k s'
    | O =>
      if starts_with old s
      then None :: scan_steps old (List.length old - 1) s'
      else Some c :: scan_steps old 0 s'
    end
  end.

Definition emit (new : str) (t : option Z) : str :=
  match t with
  | Some c => [c]
  | None => new
  end.

(** Three copied characters [a], [j], [m] in a row. *)
Fixpoint copied_triple (a j m : char) (steps : list (option Z)) : bool :=
  match steps with
  | [] => false
  | t :: rest =>
    match t, rest with
    | Some x, Some y :: Some z :: _ => (a =? x) && (j =? y) && (m =? z)
    | _, _ => false
    end || copied_triple a j m rest
  end.

(** A replacement that cannot take part in an occurrence of [a; j; m]:
    it lacks [j], does not end with [a] and does not begin with [m]. *)
Definition keeps_apart (a j m : char) (new : str) : bool :=
  match new with
  | [] => false
  | n :: _ =>
    negb (m =? n) && negb (a =? last new n)
    && forallb (fun x => negb (j =? x)) new
  end.

Definition opt_ascii (c : option char) : bool :=
  match c with
  | Some c => is_ascii c
  | None => true
  end.

(** The text that stands for the double quote in the examples: a, space,
    double quote, space, b. *)
Definition quoted_gap : str := [97; 32; dquote; 32; 98].

(** Whitespace is collapsed: no two whitespace characters stand side by
    side, and every whitespace character is the space U+0020. *)
Definition collapsed (s : str) : bool :=
  no_space_run s && forallb (fun c => negb (is_space c) || (c =? 32)) s.

(** The first letter of a key of the Arabic table. *)
Definition key_letter (c : char) : bool :=
  existsb (fun e => match fst e with
                    | k :: _ => k =? c
                    | [] => false
                    end) ARABIC_ABBREVIATIONS.

(** ASCII whitespace only. *)
Definition blank (s : str) : bool :=
  forallb (fun c => is_ascii c && is_space c) s.

Definition ascii_to_upper (c : char) : char :=
  if in_range 97 122 c then c - 32 else c.

(** The stems and words [_abbreviations] is built from, as they stand
    in the source. *)
Definition abbreviation_stems : list (str * str) :=
  [ (lit "mrs", lit "misess");
    (lit "mr", lit "mister");
    (lit "dr", lit "doctor");
    (lit "st", lit "saint");
    (lit "co", lit "company");
    (lit "jr", lit "junior");
    (lit "maj", lit "major");
    (lit "gen", lit "general");
    (lit "drs", lit "doctors");
    (lit "rev", lit "reverend");
    (lit "lt", lit "lieutenant");
    (lit "hon", lit "honorable");
    (lit "sgt", lit "sergeant");
    (lit "capt", lit "captain");
    (lit "esq", lit "esquire");
    (lit "ltd", lit "limited");
    (lit "col", lit "colonel");
    (lit "ft", lit "fort") ].

(** A character that stands in no key of the Arabic table. *)
Definition in_no_key (c : char) : bool :=
  forallb (fun e => negb (existsb (Z.eqb c) (fst e))) ARABIC_ABBREVIATIONS.

(** An ASCII character that is neither a word character nor the full
    stop: the space, the comma, the hyphen and the like. *)
Definition separator (c : char) : bool :=
  is_ascii c && negb (ascii_alnum c) && negb (c =? 95) && negb (c =? 46).

(** An ASCII word character: a letter, a digit or the underscore. *)
Definition ascii_word (c : char) : bool := ascii_alnum c || (c =? 95).

(** The stem [stem] glued to the word character [c] before it, with its
    full stop. *)
Definition glued (c : char) (stem : str) : str := c :: stem ++ lit ".".

(** [expand_abbreviations] leaves every stem of the table alone after
    the word character of code [n]. *)
Definition glued_unchanged `{Runtime} (n : nat) : bool :=
  let c := Z.of_nat n in
  negb (ascii_word c) ||
  forallb (fun e =>
             if list_eq_dec Z.eq_dec
                  (expand_abbreviations (glued c (fst e))) (glued c (fst e))
             then true else false)
          abbreviation_stems.

(** Lines 70 and 71 of [normalize_arabic_text]: the whitespace runs
    collapsed, then the double quotes removed. *)
Definition tidy `{Runtime} (text : str) : str :=
  str_replace [dquote] [] (re_sub (Plus is_space) (lit " ") text).

(** What the loop over the Arabic table makes of the text [post] that
    follows an occurrence of the key U+0643 U+062C U+0645.  When [post]
    begins with a full stop, the third entry of the table has taken that
    stop together with the last letter of the key, and the last four
    letters of its expansion follow; the rest is expanded on its own. *)
Definition after_kg (post : str) : str :=
  if starts_with (lit ".") post
  then lit "هندس" ++ expand_arabic (tl post)
  else expand_arabic post.

(** Splits a scan at a character that no match can reach from the left,
    by a lemma with the two side conditions of [replace_from_barrier]. *)
Ltac split_scan lemma :=
  rewrite lemma; [ | cbn [tl In]; intuition lia | apply Nat.le_0_l ].

(** The literals of the Arabic table, code point by code point. *)
Example ARABIC_ABBREVIATIONS_code_points :
  ARABIC_ABBREVIATIONS =
  [ ([1583; 46], [1583; 1603; 1578; 1608; 1585]);
    ([1571; 46; 1583],
     [1571; 1587; 1578; 1575; 1584; 32; 1583; 1603; 1578; 1608; 1585]);
    ([1605; 46], [1605; 1607; 1606; 1583; 1587]);
    ([1603; 1580; 1605],
     [1603; 1610; 1604; 1608; 1594; 1585; 1575; 1605]);
    ([1603; 1605], [1603; 1610; 1604; 1608; 1605; 1578; 1585]);
    ([1583; 1608; 1604; 1575; 1585],
     [1583; 1608; 1604; 1575; 1585; 32; 1571; 1605; 1585; 1610; 1603; 1610]) ].
Proof. reflexivity. Qed.

(** ** Lemmas on [str.replace] *)

Lemma starts_with_app_l old a x :
  starts_with old a = true -> starts_with old (a ++ x) = true.
Proof.
  revert a; induction old as [|o old IH]; intros [|c a]; simpl; auto.
  - discriminate.
  - intros H; apply andb_true_iff in H as [-> H]; simpl; auto.
Qed.

(** A match that starts in [a] cannot reach a character [m] that [old]
    does not hold. *)
Lemma starts_with_stops old a m rest :
  ~ In m old ->
  starts_with old (a ++ m :: rest) = true ->
  (List.length old <= List.length a)%nat /\ starts_with old a = true.
Proof.
  revert a; induction old as [|o old IH]; intros a Hm H; simpl in *.
  - split; [lia | reflexivity].
  - destruct a as [|c a]; simpl in *.
    + apply andb_true_iff in H as [H _]; apply Z.eqb_eq in H.
      exfalso; apply Hm; left; exact H.
    + apply andb_true_iff in H as [-> H]; simpl.
      destruct (IH a) as [Hl Hs]; auto.
      split; [lia | exact Hs].
Qed.

(** A character that does not occur in [old] after its first place stops
    every match that starts before it: the scan restarts there. *)
Lemma replace_from_barrier old new m rest a k :
  ~ In m (tl old) ->
  (k <= List.length a)%nat ->
  replace_from old new k (a ++ m :: rest) =
  replace_from old new k a ++ replace_from old new 0 (m :: rest).
Proof.
  intros Hm; revert k; induction a as [|c a IH]; intros k Hk.
  - simpl in Hk; replace k with 0%nat by lia; reflexivity.
  - destruct k as [|k].
    + cbn [app replace_from].
      destruct (starts_with old (c :: a ++ m :: rest)) eqn:E.
      * destruct old as [|o old]; cbn [tl] in Hm.
        { cbn [starts_with List.length Nat.sub].
          rewrite (IH 0%nat) by lia. now rewrite app_assoc. }
        cbn [starts_with] in E |- *.
        apply andb_true_iff in E as [-> E].
        destruct (starts_with_stops old a m rest Hm E) as [Hl ->].
        cbn [andb List.length].
        rewrite IH by lia. now rewrite app_assoc.
      * destruct (starts_with old (c :: a)) eqn:E'.
        { apply (starts_with_app_l _ _ (m :: rest)) in E'.
          cbn [app] in E'; congruence. }
        cbn [app]; f_equal; apply IH; lia.
    + cbn [app replace_from]. apply IH. simpl in Hk; lia.
Qed.

(** Nothing is replaced in a text that lacks the first character of
    [old]. *)
Lemma replace_from_absent o old new s :
  ~ In o s -> replace_from (o :: old) new 0 s = s.
Proof.
  induction s as [|c s IH]; intros H; [reflexivity|].
  cbn [replace_from starts_with].
  destruct (o =? c) eqn:E.
  - apply Z.eqb_eq in E; exfalso; apply H; left; auto.
  - cbn [andb]; f_equal; apply IH; intros Hi; apply H; right; exact Hi.
Qed.

(** Replacing a single character by nothing filters it out. *)
Lemma replace_from_delete d s :
  replace_from [d] [] 0 s = filter (fun c => negb (c =? d)) s.
Proof.
  induction s as [|c s IH]; [reflexivity|].
  cbn [replace_from starts_with filter List.length Nat.sub app].
  rewrite (Z.eqb_sym c d).
  destruct (d =? c); cbn [andb negb]; rewrite IH; reflexivity.
Qed.

(** What [str.replace] writes consists of characters of the text and of
    the replacement. *)
Lemma replace_from_Forall (P : char -> Prop) old new k s :
  Forall P new -> Forall P s -> Forall P (replace_from old new k s).
Proof.
  intros Hn; revert k; induction s as [|c s IH]; intros k Hs; [constructor|].
  inversion Hs; subst.
  destruct k; cbn [replace_from]; auto.
  destruct (starts_with old (c :: s)).
  - apply Forall_app; split; auto.
  - constructor; auto.
Qed.

(** ** Lemmas on [re.sub] *)

Section SubLemmas.
Context {R : Runtime}.

(** A one-character class pattern rewrites character by character. *)
Lemma re_sub_from_in_range lo hi repl prev s :
  re_sub_from (Seq [InRange lo hi]) repl prev 0 s =
  flat_map (fun c => if in_range lo hi c then repl else [c]) s.
Proof.
  revert prev; induction s as [|c s IH]; intros prev; [reflexivity|].
  cbn [re_sub_from re_match match_seq accepts flat_map].
  destruct (in_range lo hi c); cbn [option_map]; rewrite IH; reflexivity.
Qed.

Lemma squeeze_no_run cls repl s :
  run_length cls s = 0%nat ->
  squeeze cls repl true s = squeeze cls repl false s.
Proof.
  destruct s as [|c s]; [reflexivity|]; simpl.
  destruct (cls c); [discriminate | reflexivity].
Qed.

(** Passing over the rest of a run, then scanning on, is [squeeze]. *)
Lemma re_sub_from_plus_aux cls repl s :
  forall prev,
    re_sub_from (Plus cls) repl prev 0 s = squeeze cls repl false s /\
    forall k, run_length cls s = k ->
              re_sub_from (Plus cls) repl prev k s = squeeze cls repl true s.
Proof.
  induction s as [|c s IH]; intros prev.
  - split; [reflexivity|]. intros k _; destruct k; reflexivity.
  - destruct (IH (Some c)) as [IH0 IHk].
    assert (H0 : re_sub_from (Plus cls) repl prev 0 (c :: s) =
                 squeeze cls repl false (c :: s)).
    { cbn [re_sub_from re_match run_length squeeze].
      destruct (cls c).
      - rewrite (IHk _ eq_refl); reflexivity.
      - rewrite IH0; reflexivity. }
    split; [exact H0|].
    intros k Hk. destruct k as [|k].
    + rewrite H0. symmetry. apply squeeze_no_run. exact Hk.
    + cbn [re_sub_from squeeze]. cbn [run_length] in Hk.
      destruct (cls c); [|discriminate].
      apply IHk. congruence.
Qed.

Lemma re_sub_plus cls repl s :
  re_sub (Plus cls) repl s = squeeze cls repl false s.
Proof. apply re_sub_from_plus_aux. Qed.

Lemma remove_diacritics_filter text :
  remove_diacritics text = filter (fun c => negb (is_diacritic c)) text.
Proof.
  unfold remove_diacritics, re_sub, arabic_diacritics.
  rewrite re_sub_from_in_range.
  induction text as [|c s IH]; [reflexivity|].
  cbn [flat_map filter]. unfold is_diacritic at 1.
  destruct (in_range 1611 1631 c); cbn [negb app]; rewrite IH; reflexivity.
Qed.

Lemma collapse_whitespace_squeeze text :
  collapse_whitespace text = squeeze is_space [32] false text.
Proof. apply re_sub_plus. Qed.

End SubLemmas.

(** ** Lemmas on [squeeze] and [strip] *)

Lemma squeeze_idem s :
  squeeze is_space [32] false (squeeze is_space [32] false s) =
    squeeze is_space [32] false s /\
  squeeze is_space [32] true (squeeze is_space [32] true s) =
    squeeze is_space [32] true s /\
  squeeze is_space [32] false (squeeze is_space [32] true s) =
    squeeze is_space [32] true s.
Proof.
  induction s as [|c s (IH1 & IH2 & IH3)]; [repeat split|].
  cbn [squeeze]. destruct (is_space c) eqn:E.
  - cbn [app squeeze].
    replace (is_space 32) with true by reflexivity.
    rewrite IH2. repeat split; assumption.
  - cbn [squeeze]. rewrite E, IH1. repeat split.
Qed.

(** A character outside the class cuts the text in two for [squeeze]. *)
Lemma squeeze_app cls repl b a c rest :
  cls c = false ->
  squeeze cls repl b (a ++ c :: rest) =
  squeeze cls repl b a ++ c :: squeeze cls repl false rest.
Proof.
  intros Hc; revert b; induction a as [|x a IH]; intros b.
  - cbn [app squeeze]. rewrite Hc. reflexivity.
  - cbn [app squeeze]. destruct (cls x).
    + destruct b; rewrite IH; [reflexivity | now rewrite app_assoc].
    + rewrite IH; reflexivity.
Qed.

Lemma single_spaced_squeeze b s :
  single_spaced b s = true -> squeeze is_space [32] b s = s.
Proof.
  revert b; induction s as [|c s IH]; intros b H; [reflexivity|].
  cbn [single_spaced squeeze] in *.
  destruct (c =? 32) eqn:E.
  - apply Z.eqb_eq in E; subst c.
    apply andb_true_iff in H as [Hb H].
    replace (is_space 32) with true by reflexivity.
    destruct b; [discriminate|]. cbn [app]. now rewrite IH.
  - apply andb_true_iff in H as [Hl H].
    assert (Hs : is_space c = false).
    { unfold ascii_letter, is_space, in_range in *. lia. }
    rewrite Hs, IH; auto.
Qed.

Lemma lstrip_app a c rest :
  is_space c = false -> lstrip (a ++ c :: rest) = lstrip a ++ c :: rest.
Proof.
  intros Hc; induction a as [|x a IH]; cbn [app lstrip].
  - now rewrite Hc.
  - destruct (is_space x); [exact IH | reflexivity].
Qed.

Lemma rstrip_cons c s :
  is_space c = false -> rstrip (c :: s) = c :: rstrip s.
Proof.
  intros Hc; cbn [rstrip]. rewrite Hc. destruct (rstrip s); reflexivity.
Qed.

Lemma rstrip_app x y :
  rstrip y <> [] -> rstrip (x ++ y) = x ++ rstrip y.
Proof.
  intros Hy; induction x as [|c x IH]; [reflexivity|].
  cbn [app rstrip]. rewrite IH.
  destruct (x ++ rstrip y) eqn:E; [|reflexivity].
  apply app_eq_nil in E as [_ E]; contradiction.
Qed.

Lemma strip_app a c rest :
  is_space c = false ->
  strip (a ++ c :: rest) = lstrip a ++ c :: rstrip rest.
Proof.
  intros Hc; unfold strip.
  rewrite lstrip_app by exact Hc.
  rewrite rstrip_app; rewrite rstrip_cons by exact Hc; [reflexivity|discriminate].
Qed.

Lemma single_spaced_rstrip b s :
  single_spaced b s = true -> rstrip s = s.
Proof.
  revert b; induction s as [|c s IH]; intros b H; [reflexivity|].
  cbn [single_spaced] in H.
  destruct (c =? 32) eqn:E.
  - apply andb_true_iff in H as [_ H].
    cbn [rstrip]. rewrite (IH _ H).
    destruct s; [discriminate | reflexivity].
  - apply andb_true_iff in H as [Hl H].
    rewrite rstrip_cons, (IH _ H); [reflexivity|].
    unfold ascii_letter, is_space, in_range in *; lia.
Qed.

Lemma plain_words_strip s : plain_words s = true -> strip s = s.
Proof.
  intros H; unfold strip.
  assert (Hl : lstrip s = s).
  { destruct s as [|c s]; [reflexivity|].
    unfold plain_words in H; cbn [single_spaced lstrip] in *.
    destruct (c =? 32) eqn:E; [discriminate|].
    apply andb_true_iff in H as [Hc _].
    replace (is_space c) with false; [reflexivity|].
    unfold ascii_letter, is_space, in_range in *; lia. }
  rewrite Hl. exact (single_spaced_rstrip _ _ H).
Qed.

Lemma lstrip_Forall (P : char -> Prop) s : Forall P s -> Forall P (lstrip s).
Proof.
  induction 1 as [|c s Hc Hs IH]; cbn [lstrip]; [constructor|].
  destruct (is_space c); [exact IH | constructor; assumption].
Qed.

Lemma rstrip_Forall (P : char -> Prop) s : Forall P s -> Forall P (rstrip s).
Proof.
  induction 1 as [|c s Hc Hs IH]; cbn [rstrip]; [constructor|].
  destruct (rstrip s) as [|d r].
  - destruct (is_space c); constructor; [assumption | constructor].
  - constructor; assumption.
Qed.

Lemma lstrip_head s c r : lstrip s = c :: r -> is_space c = false.
Proof.
  induction s as [|x s IH]; cbn [lstrip]; [discriminate|].
  destruct (is_space x) eqn:E; [exact IH|].
  intros H; injection H as -> _; exact E.
Qed.

Lemma rstrip_last s c r d :
  rstrip s = c :: r -> is_space (last (c :: r) d) = false.
Proof.
  revert c r; induction s as [|x s IH]; intros c r; cbn [rstrip]; [discriminate|].
  destruct (rstrip s) as [|y t] eqn:E.
  - destruct (is_space x) eqn:Ex; [discriminate|].
    intros H; injection H as <- <-; exact Ex.
  - intros H; injection H as <- <-.
    specialize (IH y t eq_refl). exact IH.
Qed.

Lemma rstrip_head c s r x :
  is_space c = false -> rstrip (c :: s) = x :: r -> x = c.
Proof.
  intros Hc; rewrite rstrip_cons by exact Hc. congruence.
Qed.

Lemma strip_no_outer_space s : no_outer_space (strip s) = true.
Proof.
  unfold strip, no_outer_space.
  destruct (rstrip (lstrip s)) as [|c r] eqn:E; [reflexivity|].
  rewrite (rstrip_last _ _ _ c E).
  destruct (lstrip s) as [|x t] eqn:El; [discriminate|].
  pose proof (lstrip_head _ _ _ El) as Hx.
  rewrite (rstrip_head _ _ _ _ Hx E), Hx. reflexivity.
Qed.

(** ** Occurrences of a three-letter key after [str.replace] *)

Lemma replace_from_steps old new k s :
  replace_from old new k s = flat_map (emit new) (scan_steps old k s).
Proof.
  revert k; induction s as [|c s IH]; intros k; [reflexivity|].
  destruct k; cbn [replace_from scan_steps]; [|apply IH].
  destruct (starts_with old (c :: s)); cbn [flat_map emit]; rewrite IH;
    reflexivity.
Qed.

Lemma occurs_app p pre post : occurs p (pre ++ p ++ post) = true.
Proof.
  induction pre as [|c pre IH].
  - cbn [app]. destruct (p ++ post) eqn:E; cbn [occurs];
      rewrite <- E, (starts_with_app_l p p post); auto;
      clear; induction p as [|x p IH]; cbn [starts_with]; auto;
      rewrite Z.eqb_refl, IH; reflexivity.
  - cbn [app occurs]. rewrite IH. apply orb_true_r.
Qed.

Lemma last_nonempty (n : Z) w d e : last (n :: w) d = last (n :: w) e.
Proof.
  revert n; induction w as [|x w IH]; intros n; [reflexivity|].
  exact (IH x).
Qed.

Section Apart.
Variables a j m : char.

(** A block that lacks [j] and does not end with [a] holds no start of an
    occurrence. *)
Lemma occurs_block w rest :
  forallb (fun x => negb (j =? x)) w = true ->
  (forall d, w <> [] -> last w d <> a) ->
  occurs [a; j; m] (w ++ rest) = occurs [a; j; m] rest.
Proof.
  induction w as [|n w IH]; intros Hj Hl; [reflexivity|].
  cbn [forallb] in Hj. apply andb_true_iff in Hj as [Hn Hj].
  cbn [app occurs]. rewrite IH; [|exact Hj|].
  - replace (starts_with [a; j; m] (n :: w ++ rest)) with false;
      [reflexivity|].
    cbn [starts_with]. destruct (a =? n) eqn:E; [|reflexivity].
    apply Z.eqb_eq in E. destruct w as [|x w].
    + exfalso. apply (Hl 0); [discriminate | cbn; auto].
    + cbn [app forallb] in *. apply andb_true_iff in Hj as [Hx _].
      apply negb_true_iff in Hx. rewrite Hx. reflexivity.
  - intros d Hw. specialize (Hl d ltac:(discriminate)).
    destruct w; [contradiction | exact Hl].
Qed.

Variable new : str.
Hypothesis Hnew : keeps_apart a j m new = true.

Lemma occurs_new rest :
  occurs [a; j; m] (new ++ rest) = occurs [a; j; m] rest.
Proof.
  unfold keeps_apart in Hnew. destruct new as [|n w] eqn:E; [discriminate|].
  apply andb_true_iff in Hnew as [H Hj]. apply andb_true_iff in H as [_ Ha].
  apply occurs_block; [exact Hj|].
  intros d _. apply negb_true_iff, Z.eqb_neq in Ha.
  intros Hd. apply Ha. rewrite <- Hd. apply last_nonempty.
Qed.

Lemma new_head_not c rest :
  c = j \/ c = m -> starts_with [c] (new ++ rest) = false.
Proof.
  unfold keeps_apart in Hnew. destruct new as [|n w]; [discriminate|].
  apply andb_true_iff in Hnew as [H Hj]. apply andb_true_iff in H as [Hm _].
  cbn [forallb] in Hj. apply andb_true_iff in Hj as [Hj _].
  intros [-> | ->]; cbn [app starts_with].
  - apply negb_true_iff in Hj. rewrite Hj. reflexivity.
  - apply negb_true_iff in Hm. rewrite Hm. reflexivity.
Qed.

(** An occurrence in what [str.replace] writes is made of three copied
    characters. *)
Lemma occurs_copied steps :
  occurs [a; j; m] (flat_map (emit new) steps) = true ->
  copied_triple a j m steps = true.
Proof.
  induction steps as [|t steps IH]; [discriminate|].
  destruct t as [c|]; cbn [flat_map emit].
  2:{ rewrite occurs_new. cbn [copied_triple]. exact IH. }
  cbn [app occurs copied_triple]. intros H.
  apply orb_true_iff in H as [H | H]; [|rewrite (IH H); apply orb_true_r].
  apply orb_true_iff; left.
  cbn [starts_with] in H. apply andb_true_iff in H as [Hc H].
  destruct steps as [|[y|] steps]; cbn [flat_map emit app] in H;
    [discriminate| |].
  2:{ pose proof (new_head_not j (flat_map (emit new) steps) (or_introl eq_refl)) as Hn.
      destruct (new ++ flat_map (emit new) steps) as [|x l]; [discriminate|].
      cbn [starts_with] in H, Hn. rewrite andb_true_r in Hn.
      rewrite Hn in H. discriminate. }
  cbn [starts_with] in H. apply andb_true_iff in H as [Hy H].
  destruct steps as [|[z|] steps]; cbn [flat_map emit app] in H;
    [discriminate| |].
  2:{ pose proof (new_head_not m (flat_map (emit new) steps) (or_intror eq_refl)) as Hn.
      destruct (new ++ flat_map (emit new) steps) as [|x l]; [discriminate|].
      cbn [starts_with] in H, Hn. rewrite andb_true_r in Hn.
      rewrite Hn in H. discriminate. }
  cbn [starts_with] in H. apply andb_true_iff in H as [Hz _].
  rewrite Hc, Hy, Hz. reflexivity.
Qed.

Lemma scan_steps_copy old s y rest :
  scan_steps old 0 s = Some y :: rest ->
  exists s', s = y :: s' /\ rest = scan_steps old 0 s'.
Proof.
  destruct s as [|c s]; cbn [scan_steps]; [discriminate|].
  destruct (starts_with old (c :: s)); [discriminate|].
  intros H; injection H as -> <-. eexists; split; reflexivity.
Qed.

(** Three characters copied in a row stood in a row in the text, at a
    place where [old] did not match. *)
Lemma copied_triple_source old k s :
  copied_triple a j m (scan_steps old k s) = true ->
  exists pre post,
    s = pre ++ [a; j; m] ++ post /\
    starts_with old ([a; j; m] ++ post) = false.
Proof.
  revert k; induction s as [|c s IH]; intros k H; [destruct k; discriminate|].
  assert (Hrec : forall k', copied_triple a j m (scan_steps old k' s) = true ->
            exists pre post, c :: s = pre ++ [a; j; m] ++ post /\
              starts_with old ([a; j; m] ++ post) = false).
  { intros k' Hk. destruct (IH _ Hk) as (pre & post & -> & Hs).
    exists (c :: pre), post. split; [reflexivity | exact Hs]. }
  destruct k as [|k]; cbn [scan_steps] in H; [|exact (Hrec _ H)].
  destruct (starts_with old (c :: s)) eqn:E; cbn [copied_triple] in H.
  - exact (Hrec _ H).
  - apply orb_true_iff in H as [H | H]; [|exact (Hrec _ H)].
    destruct (scan_steps old 0 s) as [|[y|] [|[z|] rest]] eqn:E1;
      try discriminate.
    apply andb_true_iff in H as [H Hz]. apply andb_true_iff in H as [Hc Hy].
    apply Z.eqb_eq in Hc, Hy, Hz. subst c y z.
    destruct (scan_steps_copy _ _ _ _ E1) as (s1 & -> & E2).
    symmetry in E2. destruct (scan_steps_copy _ _ _ _ E2) as (s2 & -> & _).
    exists [], s2. split; [reflexivity | exact E].
Qed.

(** [str.replace] brings no new occurrence about. *)
Lemma replace_from_no_new old s :
  occurs [a; j; m] s = false ->
  occurs [a; j; m] (replace_from old new 0 s) = false.
Proof.
  intros Hs. destruct (occurs _ (replace_from _ _ _ _)) eqn:E; [|reflexivity].
  rewrite replace_from_steps in E. apply occurs_copied in E.
  destruct (copied_triple_source _ _ _ E) as (pre & post & -> & _).
  rewrite occurs_app in Hs. discriminate.
Qed.

(** Replacing [a; j; m] itself leaves no occurrence. *)
Lemma replace_from_none_left s :
  occurs [a; j; m] (replace_from [a; j; m] new 0 s) = false.
Proof.
  destruct (occurs _ (replace_from _ _ _ _)) eqn:E; [|reflexivity].
  rewrite replace_from_steps in E. apply occurs_copied in E.
  destruct (copied_triple_source _ _ _ E) as (pre & post & _ & H).
  cbn [app starts_with] in H. rewrite !Z.eqb_refl in H. discriminate.
Qed.

End Apart.

(** ** The cleaners under the facts known of the runtime *)

Section Properties.
Context {R : Runtime}.

(** Python's behaviour on the characters the statements need. *)
Hypothesis NFKC_inert :
  forall s, forallb nfkc_inert s = true -> unicodedata_normalize_NFKC s = s.
Hypothesis lower_ascii :
  forall s, forallb is_ascii s = true -> str_lower s = map ascii_lower s.
Hypothesis isalnum_ascii :
  forall c, is_ascii c = true -> unicode_isalnum c = ascii_alnum c.
Hypothesis tolower_ascii :
  forall c, is_ascii c = true -> unicode_tolower c = ascii_lower c.

Lemma is_word_ascii c :
  is_ascii c = true -> @is_word R c = @is_word ascii_runtime c.
Proof. intros H; unfold is_word; rewrite isalnum_ascii by exact H; reflexivity. Qed.

Lemma is_word_opt_ascii c :
  opt_ascii c = true -> @is_word_opt R c = @is_word_opt ascii_runtime c.
Proof. destruct c; [apply is_word_ascii | reflexivity]. Qed.

Lemma accepts_ascii a c :
  is_ascii c = true -> @accepts R a c = @accepts ascii_runtime a c.
Proof.
  intros H; destruct a; cbn [accepts]; try reflexivity.
  unfold ignore_eq; rewrite tolower_ascii by exact H; reflexivity.
Qed.

Lemma match_seq_ascii atoms prev s :
  opt_ascii prev = true -> forallb is_ascii s = true ->
  @match_seq R atoms prev s = @match_seq ascii_runtime atoms prev s.
Proof.
  revert prev s; induction atoms as [|a atoms IH]; intros prev s Hp Hs;
    [reflexivity|].
  assert (Hh : opt_ascii (hd_error s) = true).
  { destruct s as [|c s]; [reflexivity|].
    cbn [forallb] in Hs; apply andb_true_iff in Hs as [Hc _]; exact Hc. }
  destruct a as [|p|p|lo hi]; cbn [match_seq].
  - rewrite !is_word_opt_ascii by assumption. rewrite IH by assumption.
    reflexivity.
  - destruct s as [|c s]; [reflexivity|].
    cbn [forallb] in Hs; apply andb_true_iff in Hs as [Hc Hs].
    rewrite accepts_ascii, IH by assumption. reflexivity.
  - destruct s as [|c s]; [reflexivity|].
    cbn [forallb] in Hs; apply andb_true_iff in Hs as [Hc Hs].
    rewrite accepts_ascii, IH by assumption. reflexivity.
  - destruct s as [|c s]; [reflexivity|].
    cbn [forallb] in Hs; apply andb_true_iff in Hs as [Hc Hs].
    rewrite accepts_ascii, IH by assumption. reflexivity.
Qed.

Lemma re_sub_from_ascii r repl prev k s :
  opt_ascii prev = true -> forallb is_ascii s = true ->
  @re_sub_from R r repl prev k s = @re_sub_from ascii_runtime r repl prev k s.
Proof.
  revert prev k; induction s as [|c s IH]; intros prev k Hp Hs; [reflexivity|].
  pose proof Hs as Hcs.
  cbn [forallb] in Hs; apply andb_true_iff in Hs as [Hc Hs].
  destruct k; cbn [re_sub_from]; [|apply IH; assumption].
  assert (Hm : @re_match R r prev (c :: s) = @re_match ascii_runtime r prev (c :: s)).
  { destruct r; cbn [re_match]; [apply match_seq_ascii; assumption | reflexivity]. }
  rewrite Hm.
  destruct (@re_match ascii_runtime r prev (c :: s)) as [[|n]|];
    rewrite IH by assumption; reflexivity.
Qed.

Lemma re_sub_from_all_ascii r repl prev k s :
  forallb is_ascii repl = true -> forallb is_ascii s = true ->
  forallb is_ascii (@re_sub_from ascii_runtime r repl prev k s) = true.
Proof.
  intros Hr; revert prev k; induction s as [|c s IH]; intros prev k Hs;
    [reflexivity|].
  cbn [forallb] in Hs; apply andb_true_iff in Hs as [Hc Hs].
  destruct k; cbn [re_sub_from]; [|apply IH; assumption].
  destruct (@re_match ascii_runtime r prev (c :: s)) as [[|n]|].
  - cbn [forallb]; rewrite Hc, IH by assumption; reflexivity.
  - rewrite forallb_app, Hr, IH by assumption; reflexivity.
  - cbn [forallb]; rewrite Hc, IH by assumption; reflexivity.
Qed.

Lemma fold_re_sub_ascii (table : list (regex * str)) s :
  forallb (fun e => forallb is_ascii (snd e)) table = true ->
  forallb is_ascii s = true ->
  fold_left (fun text e => @re_sub R (fst e) (snd e) text) table s =
  fold_left (fun text e => @re_sub ascii_runtime (fst e) (snd e) text) table s.
Proof.
  revert s; induction table as [|e table IH]; intros s Ht Hs; [reflexivity|].
  cbn [forallb] in Ht; apply andb_true_iff in Ht as [He Ht].
  cbn [fold_left]. unfold re_sub at 2 4.
  rewrite re_sub_from_ascii by (assumption || reflexivity).
  apply IH; [assumption|].
  apply re_sub_from_all_ascii; assumption.
Qed.

(** On ASCII text the English expansion needs no more of the runtime
    than its ASCII part. *)
Lemma expand_abbreviations_ascii s :
  forallb is_ascii s = true ->
  @expand_abbreviations R s = @expand_abbreviations ascii_runtime s.
Proof.
  intros Hs; unfold expand_abbreviations.
  apply fold_re_sub_ascii; [reflexivity | exact Hs].
Qed.

(** *** Diacritics *)

(** C5: [remove_diacritics text] is [text] without the characters of
    U+064B..U+065F, the others unchanged and in their order; the empty
    string gives the empty string. *)
Theorem remove_diacritics_deletes_range text :
  remove_diacritics text =
    filter (fun c => negb (in_range 0x064B 0x065F c)) text /\
  remove_diacritics [] = [].
Proof.
  split; [|reflexivity].
  rewrite remove_diacritics_filter. reflexivity.
Qed.

Lemma filter_idem (f : char -> bool) s : filter f (filter f s) = filter f s.
Proof.
  induction s as [|c s IH]; [reflexivity|].
  cbn [filter]. destruct (f c) eqn:E; [|exact IH].
  cbn [filter]. rewrite E, IH. reflexivity.
Qed.

(** C8: [remove_diacritics] is idempotent. *)
Theorem remove_diacritics_idempotent s :
  remove_diacritics (remove_diacritics s) = remove_diacritics s.
Proof. rewrite !remove_diacritics_filter. apply filter_idem. Qed.

(** *** Whitespace *)

(** C7: [collapse_whitespace] is idempotent. *)
Theorem collapse_whitespace_idempotent s :
  collapse_whitespace (collapse_whitespace s) = collapse_whitespace s.
Proof. rewrite !collapse_whitespace_squeeze. apply squeeze_idem. Qed.

(** C6: [basic_cleaners] lowercases, then collapses whitespace; on
    "HELLO   WORLD" it gives "hello world". *)
Theorem basic_cleaners_hello_world :
  basic_cleaners (lit "HELLO   WORLD") = lit "hello world" /\
  forall text, basic_cleaners text = collapse_whitespace (lowercase text).
Proof.
  split; [|reflexivity].
  unfold basic_cleaners, lowercase.
  rewrite lower_ascii by reflexivity.
  rewrite collapse_whitespace_squeeze. reflexivity.
Qed.

(** *** English abbreviations *)

(** C4: "Dr. Smith and Mrs. Jones" becomes "doctor Smith and misess
    Jones".  A stem matches whatever its case and gives the same
    lower-case word; after a word character it does not match. *)
Theorem expand_abbreviations_dr_mrs :
  expand_abbreviations (lit "Dr. Smith and Mrs. Jones") =
    lit "doctor Smith and misess Jones" /\
  expand_abbreviations (lit "DR. WHO") = lit "doctor WHO" /\
  expand_abbreviations (lit "dr. who") = lit "doctor who" /\
  expand_abbreviations (lit "padr. who") = lit "padr. who".
Proof.
  repeat split; rewrite expand_abbreviations_ascii by reflexivity;
    vm_compute; reflexivity.
Qed.

(** *** The pipelines *)

(** C2: [english_cleaners] is [normalize_arabic_text]; the other two
    pipelines are lower-casing and whitespace collapsing, after
    transliteration for the second.  None of the three calls
    [expand_abbreviations] or [expand_numbers]: their results stay the
    same whatever the runtime answers to what only these two ask. *)
Theorem english_cleaners_is_normalize_arabic_text text :
  english_cleaners text = normalize_arabic_text text /\
  basic_cleaners text = collapse_whitespace (lowercase text) /\
  transliteration_cleaners text =
    collapse_whitespace (lowercase (convert_to_ascii text)) /\
  forall isalnum tolower numbers,
    @english_cleaners (with_expanders isalnum tolower numbers R) text =
      english_cleaners text /\
    @basic_cleaners (with_expanders isalnum tolower numbers R) text =
      basic_cleaners text /\
    @transliteration_cleaners (with_expanders isalnum tolower numbers R) text =
      transliteration_cleaners text.
Proof.
  repeat split.
  - unfold english_cleaners, normalize_arabic_text.
    rewrite !remove_diacritics_filter, !re_sub_plus. reflexivity.
  - unfold basic_cleaners. rewrite !collapse_whitespace_squeeze. reflexivity.
  - unfold transliteration_cleaners.
    rewrite !collapse_whitespace_squeeze. reflexivity.
Qed.

(** C10: [normalize_arabic_text] is not idempotent.  The key U+062F
    U+0648 U+0644 U+0627 U+0631 (dollar) expands to a text that holds the
    key again, so a second application expands it once more. *)
Theorem normalize_arabic_text_not_idempotent :
  normalize_arabic_text (lit "دولار") = lit "دولار أمريكي" /\
  normalize_arabic_text (normalize_arabic_text (lit "دولار")) =
    lit "دولار أمريكي أمريكي" /\
  normalize_arabic_text (normalize_arabic_text (lit "دولار")) <>
    normalize_arabic_text (lit "دولار").
Proof.
  assert (H1 : normalize_arabic_text (lit "دولار") = lit "دولار أمريكي").
  { unfold normalize_arabic_text.
    rewrite NFKC_inert by reflexivity. vm_compute. reflexivity. }
  assert (H2 : normalize_arabic_text (lit "دولار أمريكي") =
               lit "دولار أمريكي أمريكي").
  { unfold normalize_arabic_text.
    rewrite NFKC_inert by reflexivity. vm_compute. reflexivity. }
  rewrite H1, H2. repeat split. discriminate.
Qed.

(** C1, at the text a, space, double quote, space, b: the whitespace is
    collapsed before the double quote is removed, so the two spaces
    around the quote end up side by side in the result. *)
Theorem normalize_arabic_text_quoted_gap :
  normalize_arabic_text quoted_gap = [97; 32; 32; 98] /\
  no_space_run (normalize_arabic_text quoted_gap) = false.
Proof.
  assert (H : normalize_arabic_text quoted_gap = [97; 32; 32; 98]).
  { unfold normalize_arabic_text.
    rewrite NFKC_inert by reflexivity. vm_compute. reflexivity. }
  rewrite H. split; reflexivity.
Qed.

Lemma filter_Forall_true (f : char -> bool) s :
  Forall (fun c => f c = true) (filter f s).
Proof.
  induction s as [|c s IH]; cbn [filter]; [constructor|].
  destruct (f c) eqn:E; [constructor; assumption | exact IH].
Qed.

Lemma filter_Forall (P : char -> Prop) (f : char -> bool) s :
  Forall P s -> Forall P (filter f s).
Proof.
  induction 1 as [|c s Hc Hs IH]; cbn [filter]; [constructor|].
  destruct (f c); [constructor; assumption | exact IH].
Qed.

Lemma filter_all (f : char -> bool) s :
  Forall (fun c => f c = true) s -> filter f s = s.
Proof.
  induction 1 as [|c s Hc Hs IH]; cbn [filter]; [reflexivity|].
  rewrite Hc, IH. reflexivity.
Qed.

Lemma squeeze_Forall (P : char -> Prop) cls repl b s :
  Forall P repl -> Forall P s -> Forall P (squeeze cls repl b s).
Proof.
  intros Hr Hs; revert b; induction Hs as [|c s Hc Hs IH]; intros b;
    cbn [squeeze]; [constructor|].
  destruct (cls c); [destruct b|]; auto.
  apply Forall_app; split; auto.
Qed.

Lemma str_replace_Forall (P : char -> Prop) old new s :
  Forall P new -> Forall P s -> Forall P (str_replace old new s).
Proof.
  intros Hn Hs; destruct old as [|o old]; cbn [str_replace].
  - apply Forall_app; split; [exact Hn|].
    induction Hs as [|c s Hc Hs IH]; cbn [flat_map]; [constructor|].
    constructor; [exact Hc|]. apply Forall_app; split; assumption.
  - apply replace_from_Forall; assumption.
Qed.

Lemma fold_str_replace_Forall (f : char -> bool) (table : list (str * str)) s :
  forallb (fun e => forallb f (snd e)) table = true ->
  Forall (fun c => f c = true) s ->
  Forall (fun c => f c = true)
    (fold_left (fun text e => str_replace (fst e) (snd e) text) table s).
Proof.
  revert s; induction table as [|e table IH]; intros s Ht Hs; [exact Hs|].
  cbn [forallb] in Ht; apply andb_true_iff in Ht as [He Ht].
  cbn [fold_left]. apply IH; [exact Ht|].
  apply str_replace_Forall; [|exact Hs].
  apply Forall_forall; apply forallb_forall; exact He.
Qed.

Lemma strip_Forall (P : char -> Prop) s : Forall P s -> Forall P (strip s).
Proof. intros H; apply rstrip_Forall, lstrip_Forall, H. Qed.

Lemma Forall_forallb (f : char -> bool) s :
  Forall (fun c => f c = true) s -> forallb f s = true.
Proof. intros H; apply forallb_forall; apply Forall_forall; exact H. Qed.

Lemma forallb_Forall (f : char -> bool) s :
  forallb f s = true -> Forall (fun c => f c = true) s.
Proof. intros H; apply Forall_forall; apply forallb_forall; exact H. Qed.

(** What does hold of every result of [normalize_arabic_text]: no
    diacritic, no double quote, no whitespace at either end. *)
Theorem normalize_arabic_text_clean text :
  no_diacritic (normalize_arabic_text text) = true /\
  no_dquote (normalize_arabic_text text) = true /\
  no_outer_space (normalize_arabic_text text) = true.
Proof.
  unfold normalize_arabic_text.
  rewrite remove_diacritics_filter, re_sub_plus.
  cbn [str_replace]. rewrite replace_from_delete.
  repeat split.
  - apply Forall_forallb, strip_Forall, filter_Forall, squeeze_Forall.
    { repeat constructor. }
    apply fold_str_replace_Forall; [|apply filter_Forall_true].
    vm_compute. reflexivity.
  - apply Forall_forallb, strip_Forall, filter_Forall_true.
  - apply strip_no_outer_space.
Qed.

(** *** Plain ASCII words *)

Lemma single_spaced_chars b s :
  single_spaced b s = true ->
  Forall (fun c => (c =? 32) || ascii_letter c = true) s.
Proof.
  revert b; induction s as [|c s IH]; intros b H; [constructor|].
  cbn [single_spaced] in H. destruct (c =? 32) eqn:E.
  - apply andb_true_iff in H as [_ H].
    constructor; [rewrite E; reflexivity | exact (IH _ H)].
  - apply andb_true_iff in H as [Hc H].
    constructor; [rewrite Hc; apply orb_true_r | exact (IH _ H)].
Qed.

(** A property of the space and of the ASCII letters holds of every
    character of a text of plain words. *)
Lemma single_spaced_all (f : char -> bool) b s :
  (forall c, (c =? 32) || ascii_letter c = true -> f c = true) ->
  single_spaced b s = true -> Forall (fun c => f c = true) s.
Proof.
  intros Hf H. apply single_spaced_chars in H.
  induction H as [|c s Hc Hs IH]; constructor; auto.
Qed.

Lemma plain_words_squeeze s :
  plain_words s = true -> squeeze is_space [32] false s = s.
Proof.
  unfold plain_words; destruct s as [|c s]; [reflexivity|].
  cbn [single_spaced squeeze].
  destruct (c =? 32) eqn:E; [discriminate|].
  intros H; apply andb_true_iff in H as [Hc H].
  replace (is_space c) with false.
  - now rewrite (single_spaced_squeeze _ _ H).
  - unfold ascii_letter, is_space, in_range in *; lia.
Qed.

Lemma single_spaced_lower b s :
  single_spaced b s = true -> single_spaced b (map ascii_lower s) = true.
Proof.
  revert b; induction s as [|c s IH]; intros b H; [exact H|].
  cbn [single_spaced map] in *. destruct (c =? 32) eqn:E.
  - apply Z.eqb_eq in E; subst c.
    apply andb_true_iff in H as [Hb H].
    change (ascii_lower 32 =? 32) with true. cbv iota.
    rewrite Hb, (IH _ H). reflexivity.
  - apply andb_true_iff in H as [Hc H].
    replace (ascii_lower c =? 32) with false.
    + rewrite (IH _ H).
      replace (ascii_letter (ascii_lower c)) with true; [reflexivity|].
      unfold ascii_lower, ascii_upper, ascii_letter, in_range in *.
      destruct ((65 <=? c) && (c <=? 90)) eqn:U; lia.
    + unfold ascii_lower, ascii_upper, ascii_letter, in_range in *.
      destruct ((65 <=? c) && (c <=? 90)) eqn:U; lia.
Qed.

Lemma lower_fixed_no_upper s :
  map ascii_lower s = s -> existsb ascii_upper s = false.
Proof.
  induction s as [|c s IH]; [reflexivity|].
  cbn [map existsb]. intros H; injection H as Hc Hs.
  rewrite (IH Hs). unfold ascii_lower in Hc.
  destruct (ascii_upper c); [lia | reflexivity].
Qed.

Lemma expand_arabic_plain s :
  Forall (fun c => is_ascii c = true) s -> expand_arabic s = s.
Proof.
  intros H. unfold expand_arabic.
  rewrite ARABIC_ABBREVIATIONS_code_points.
  cbn [fold_left fst snd str_replace].
  repeat (rewrite (replace_from_absent _ _ _ s);
          [|intros Hi; rewrite Forall_forall in H; apply H in Hi; discriminate]).
  reflexivity.
Qed.

(** [normalize_arabic_text] leaves a text of plain words as it is. *)
Lemma normalize_arabic_text_plain s :
  plain_words s = true -> normalize_arabic_text s = s.
Proof.
  intros H. unfold normalize_arabic_text.
  assert (Hall : forall f : char -> bool,
             (forall c, (c =? 32) || ascii_letter c = true -> f c = true) ->
             Forall (fun c => f c = true) s).
  { intros f Hf. exact (single_spaced_all f true s Hf H). }
  rewrite NFKC_inert.
  2:{ apply Forall_forallb, Hall. intros c Hc.
      unfold nfkc_inert, is_ascii, ascii_letter, in_range in *; lia. }
  rewrite remove_diacritics_filter, filter_all.
  2:{ apply Hall. intros c Hc.
      unfold is_diacritic, ascii_letter, in_range in *; lia. }
  rewrite expand_arabic_plain.
  2:{ apply Hall. intros c Hc.
      unfold is_ascii, ascii_letter, in_range in *; lia. }
  rewrite re_sub_plus. change (lit " ") with [32].
  rewrite (plain_words_squeeze _ H).
  cbn [str_replace]. rewrite replace_from_delete, filter_all.
  2:{ apply Hall. intros c Hc.
      unfold dquote, ascii_letter, in_range in *; lia. }
  apply plain_words_strip, H.
Qed.

(** C9: [english_cleaners] folds no case.  It returns a text of ASCII
    letters and single inner spaces unchanged, capitals included, and so
    differs there from [basic_cleaners] as soon as the text holds a
    capital. *)
Theorem english_cleaners_keeps_case s :
  plain_words s = true ->
  english_cleaners s = s /\
  (existsb ascii_upper s = true -> english_cleaners s <> basic_cleaners s).
Proof.
  intros H. unfold english_cleaners.
  rewrite (normalize_arabic_text_plain _ H). split; [reflexivity|].
  intros Hu Heq.
  unfold basic_cleaners, lowercase in Heq.
  rewrite lower_ascii in Heq.
  2:{ apply Forall_forallb, (single_spaced_all _ true s); [|exact H].
      intros c Hc. unfold is_ascii, ascii_letter, in_range in *; lia. }
  rewrite collapse_whitespace_squeeze in Heq.
  rewrite plain_words_squeeze in Heq
    by (apply single_spaced_lower; exact H).
  symmetry in Heq. apply lower_fixed_no_upper in Heq. congruence.
Qed.

(** *** The Arabic table matches inside words *)

(** A block of characters outside the class passes through [squeeze] and
    separates what stands before it from what follows. *)
Lemma squeeze_block cls repl b a w rest :
  w <> [] -> forallb (fun c => negb (cls c)) w = true ->
  squeeze cls repl b (a ++ w ++ rest) =
  squeeze cls repl b a ++ w ++ squeeze cls repl false rest.
Proof.
  destruct w as [|c w]; [contradiction|]. intros _ H.
  cbn [forallb] in H. apply andb_true_iff in H as [Hc Hw].
  apply negb_true_iff in Hc.
  cbn [app]. rewrite squeeze_app by exact Hc. do 2 f_equal.
  induction w as [|d w IH]; [reflexivity|].
  cbn [forallb] in Hw. apply andb_true_iff in Hw as [Hd Hw].
  apply negb_true_iff in Hd.
  cbn [app squeeze]. rewrite Hd, IH by exact Hw. reflexivity.
Qed.

Lemma strip_block a w rest :
  w <> [] -> forallb (fun c => negb (is_space c)) w = true ->
  strip (a ++ w ++ rest) = lstrip a ++ w ++ rstrip rest.
Proof.
  destruct w as [|c w]; [contradiction|]. intros _ H.
  cbn [forallb] in H. apply andb_true_iff in H as [Hc Hw].
  apply negb_true_iff in Hc.
  cbn [app]. rewrite strip_app by exact Hc. do 2 f_equal.
  induction w as [|d w IH]; [reflexivity|].
  cbn [forallb] in Hw. apply andb_true_iff in Hw as [Hd Hw].
  apply negb_true_iff in Hd.
  cbn [app]. rewrite rstrip_cons, IH by assumption. reflexivity.
Qed.

(** Where no full stop follows, the third entry of the table leaves the
    key alone. *)
Lemma engineer_not_after_kg new (X : str) :
  starts_with [46] X = false ->
  replace_from [1605; 46] new 0 (1603 :: 1580 :: 1605 :: X) =
  1603 :: 1580 :: 1605 :: replace_from [1605; 46] new 0 X.
Proof.
  intros H. destruct X as [|x X]; [reflexivity|].
  cbn [starts_with] in H. cbn [replace_from starts_with].
  replace (1605 =? 1603) with false by reflexivity.
  replace (1605 =? 1580) with false by reflexivity.
  rewrite Z.eqb_refl, H. reflexivity.
Qed.

(** [str.replace] does not bring the character [c] to the front of a
    text when the replacement does not begin with it. *)
Lemma replace_from_head_not old n new c s :
  (c =? n) = false ->
  starts_with [c] s = false ->
  starts_with [c] (replace_from old (n :: new) 0 s) = false.
Proof.
  intros Hn Hs. destruct s as [|d s]; [reflexivity|].
  cbn [replace_from]. destruct (starts_with old (d :: s)).
  - cbn [app starts_with]. rewrite Hn. reflexivity.
  - cbn [starts_with] in Hs |- *. exact Hs.
Qed.

(** The key followed by no full stop: the loop writes the expansion in
    its place and expands the texts around it on their own. *)
Lemma expand_arabic_kg_plain pre post :
  starts_with [46] post = false ->
  expand_arabic (pre ++ [1603; 1580; 1605] ++ post) =
  expand_arabic pre
    ++ [1603; 1610; 1604; 1608; 1594; 1585; 1575; 1605]
    ++ expand_arabic post.
Proof.
  intros H. unfold expand_arabic.
  rewrite ARABIC_ABBREVIATIONS_code_points.
  cbn [fold_left fst snd str_replace app].
  split_scan replace_from_barrier. cbn.
  split_scan replace_from_barrier. cbn.
  split_scan replace_from_barrier.
  rewrite engineer_not_after_kg
    by (do 2 (apply replace_from_head_not; [reflexivity|]); exact H).
  split_scan replace_from_barrier. cbn.
  split_scan replace_from_barrier. cbn.
  split_scan replace_from_barrier. cbn.
  reflexivity.
Qed.

(** The key followed by a full stop: the third entry of the table takes
    the last letter of the key with the stop, and writes that letter
    again at the head of its expansion; the key is expanded all the same
    and the rest of that expansion follows. *)
Lemma expand_arabic_kg_stop pre p :
  expand_arabic (pre ++ [1603; 1580; 1605] ++ 46 :: p) =
  expand_arabic pre
    ++ [1603; 1610; 1604; 1608; 1594; 1585; 1575; 1605]
    ++ [1607; 1606; 1583; 1587] ++ expand_arabic p.
Proof.
  unfold expand_arabic.
  rewrite ARABIC_ABBREVIATIONS_code_points.
  cbn [fold_left fst snd str_replace app].
  split_scan replace_from_barrier. cbn.
  split_scan replace_from_barrier. cbn.
  split_scan replace_from_barrier. cbn.
  split_scan replace_from_barrier. cbn.
  split_scan replace_from_barrier. cbn.
  split_scan replace_from_barrier. cbn.
  reflexivity.
Qed.

(** Every occurrence of the key in the text given to the loop is written
    as its expansion, whatever stands around it. *)
Lemma expand_arabic_kg pre post :
  expand_arabic (pre ++ [1603; 1580; 1605] ++ post) =
  expand_arabic pre
    ++ [1603; 1610; 1604; 1608; 1594; 1585; 1575; 1605] ++ after_kg post.
Proof.
  unfold after_kg. change (lit ".") with [46].
  change (lit "هندس") with [1607; 1606; 1583; 1587].
  destruct (starts_with [46] post) eqn:E.
  - destruct post as [|c p]; [discriminate|].
    cbn [starts_with] in E. rewrite andb_true_r in E.
    apply Z.eqb_eq in E. subst c. cbn [tl].
    apply expand_arabic_kg_stop.
  - apply expand_arabic_kg_plain, E.
Qed.

(** C3: the Arabic table is matched on raw substrings.  Wherever the key
    U+0643 U+062C U+0645 stands in the text after NFKC and the removal of
    diacritics, alone or inside a longer word, the result holds the
    expansion U+0643 U+064A U+0644 U+0648 U+063A U+0631 U+0627 U+0645 in
    its place: before it stands the text before the key, expanded,
    tidied and stripped on the left; after it stands what the loop makes
    of the text after the key, tidied and stripped on the right.  No
    character of the key is left between them. *)
Theorem arabic_kg_expanded text pre post :
  remove_diacritics (unicodedata_normalize_NFKC text) =
    pre ++ lit "كجم" ++ post ->
  normalize_arabic_text text =
    lstrip (tidy (expand_arabic pre))
      ++ lit "كيلوغرام"
      ++ rstrip (tidy (after_kg post)).
Proof.
  intros H. unfold normalize_arabic_text, tidy. rewrite H.
  change (lit "كجم") with [1603; 1580; 1605].
  change (lit "كيلوغرام")
    with [1603; 1610; 1604; 1608; 1594; 1585; 1575; 1605].
  rewrite expand_arabic_kg.
  rewrite !re_sub_plus. cbn [str_replace]. rewrite !replace_from_delete.
  rewrite squeeze_block; [|discriminate|reflexivity].
  rewrite !filter_app.
  rewrite (filter_all _ [1603; 1610; 1604; 1608; 1594; 1585; 1575; 1605])
    by (repeat constructor).
  rewrite strip_block; [|discriminate|reflexivity].
  reflexivity.
Qed.

(** After the loop over the table the text holds the key U+0643 U+062C
    U+0645 nowhere: no occurrence is passed over, and the two entries that
    follow bring none about. *)
Theorem expand_arabic_no_kg text :
  occurs (lit "كجم") (expand_arabic text) = false.
Proof.
  unfold expand_arabic. rewrite ARABIC_ABBREVIATIONS_code_points.
  cbn [fold_left fst snd str_replace].
  change (lit "كجم") with [1603; 1580; 1605].
  do 2 (apply replace_from_no_new; [reflexivity|]).
  apply replace_from_none_left. reflexivity.
Qed.

(** The key as a word of its own, inside a word, and before a full stop,
    where the third entry of the table takes its last letter first. *)
Example arabic_kg_examples :
  normalize_arabic_text (lit "5 كجم") = lit "5 كيلوغرام" /\
  normalize_arabic_text (lit "abكجمcd") = lit "abكيلوغرامcd" /\
  normalize_arabic_text (lit "كجم.") = lit "كيلوغرامهندس" /\
  normalize_arabic_text (lit "  مرحبا  ") = lit "مرحبا".
Proof.
  repeat split; unfold normalize_arabic_text;
    rewrite NFKC_inert by reflexivity; vm_compute; reflexivity.
Qed.

(** *** What collapsing whitespace achieves *)

Lemma no_space_run_cons c s :
  no_space_run (c :: s) =
  match s with
  | [] => true
  | d :: _ => negb (is_space c && is_space d) && no_space_run s
  end.
Proof. reflexivity. Qed.

(** The result of [squeeze] has no run, and after a run it does not
    begin with whitespace. *)
Lemma squeeze_no_space_run b s :
  no_space_run (squeeze is_space [32] b s) = true /\
  (b = true ->
   match squeeze is_space [32] b s with
   | [] => True
   | d :: _ => is_space d = false
   end).
Proof.
  revert b; induction s as [|c s IH]; intros b;
    [split; [reflexivity | intros _; exact I]|].
  cbn [squeeze]. destruct (is_space c) eqn:E.
  - destruct (IH true) as [Hr Hh]. specialize (Hh eq_refl).
    destruct b; [split; auto|].
    split; [|discriminate].
    cbn [app]. rewrite no_space_run_cons.
    destruct (squeeze is_space [32] true s) as [|d t]; [reflexivity|].
    rewrite Hh, Hr, andb_false_r. reflexivity.
  - destruct (IH false) as [Hr _].
    split; [|intros _; exact E].
    rewrite no_space_run_cons.
    destruct (squeeze is_space [32] false s) as [|d t]; [reflexivity|].
    rewrite E, Hr. reflexivity.
Qed.

Lemma squeeze_only_spaces b s :
  forallb (fun c => negb (is_space c) || (c =? 32))
    (squeeze is_space [32] b s) = true.
Proof.
  revert b; induction s as [|c s IH]; intros b; [reflexivity|].
  cbn [squeeze]. destruct (is_space c) eqn:E.
  - destruct b; [apply IH|]. cbn [app forallb]. rewrite IH. reflexivity.
  - cbn [forallb]. rewrite E, IH. reflexivity.
Qed.

Lemma squeeze_collapsed s : collapsed (squeeze is_space [32] false s) = true.
Proof.
  unfold collapsed.
  rewrite (proj1 (squeeze_no_space_run false s)), squeeze_only_spaces.
  reflexivity.
Qed.

(** On a collapsed text [squeeze] changes nothing. *)
Lemma collapsed_squeeze s :
  no_space_run s = true ->
  forallb (fun c => negb (is_space c) || (c =? 32)) s = true ->
  squeeze is_space [32] false s = s /\
  (match s with [] => True | d :: _ => is_space d = false end ->
   squeeze is_space [32] true s = s).
Proof.
  induction s as [|c s IH]; intros Hr Ho; [split; auto|].
  cbn [forallb] in Ho. apply andb_true_iff in Ho as [Hc Ho].
  rewrite no_space_run_cons in Hr.
  assert (Hs : no_space_run s = true).
  { destruct s; [reflexivity|]. apply andb_true_iff in Hr as [_ Hr]; exact Hr. }
  destruct (IH Hs Ho) as [IH0 IH1].
  cbn [squeeze]. destruct (is_space c) eqn:E.
  - cbn [negb orb] in Hc. apply Z.eqb_eq in Hc. subst c.
    split; [|discriminate].
    cbn [app]. f_equal. apply IH1.
    destruct s as [|d s]; [exact I|].
    apply andb_true_iff in Hr as [Hr _].
    cbn [andb] in Hr. apply negb_true_iff in Hr. exact Hr.
  - rewrite IH0. split; reflexivity.
Qed.

(** X4: whatever the text, the results of [collapse_whitespace], of
    [basic_cleaners] and of [transliteration_cleaners] hold no two
    whitespace characters side by side and no whitespace character other
    than the space U+0020. *)
Theorem collapse_whitespace_collapsed text :
  collapsed (collapse_whitespace text) = true /\
  collapsed (basic_cleaners text) = true /\
  collapsed (transliteration_cleaners text) = true.
Proof.
  unfold basic_cleaners, transliteration_cleaners.
  rewrite !collapse_whitespace_squeeze.
  repeat split; apply squeeze_collapsed.
Qed.

(** X5: [collapse_whitespace] leaves a text as it is exactly when the
    text is collapsed already. *)
Theorem collapse_whitespace_fixed_iff text :
  collapse_whitespace text = text <-> collapsed text = true.
Proof.
  rewrite collapse_whitespace_squeeze. split.
  - intros H. rewrite <- H. apply squeeze_collapsed.
  - unfold collapsed. intros H. apply andb_true_iff in H as [Hr Ho].
    apply collapsed_squeeze; assumption.
Qed.

(** Whether a run is open at the end of [a], when [b] tells it for the
    start. *)
Lemma squeeze_app_state cls repl b a x :
  squeeze cls repl b (a ++ x) =
  squeeze cls repl b a ++
  squeeze cls repl (match a with [] => b | _ => cls (last a 0) end) x.
Proof.
  revert b; induction a as [|c a IH]; intros b; [reflexivity|].
  cbn [app squeeze].
  assert (Hl : forall b',
    squeeze cls repl b' (a ++ x) =
    squeeze cls repl b' a ++
    squeeze cls repl (match a with [] => b' | _ => cls (last a 0) end) x)
    by (intros b'; apply IH).
  destruct (cls c) eqn:E.
  - destruct b; rewrite Hl; [|rewrite <- app_assoc];
      destruct a; cbn [last]; rewrite ?E; reflexivity.
  - rewrite Hl. destruct a; cbn [last app]; rewrite ?E; reflexivity.
Qed.

Lemma squeeze_true_squeeze s :
  squeeze is_space [32] true (squeeze is_space [32] false s) =
  squeeze is_space [32] true s.
Proof.
  destruct s as [|c s]; [reflexivity|].
  cbn [squeeze]. destruct (is_space c) eqn:E.
  - cbn [app squeeze]. replace (is_space 32) with true by reflexivity.
    apply squeeze_idem.
  - cbn [squeeze]. rewrite E. f_equal. apply squeeze_idem.
Qed.

(** The last character of a squeezed text is whitespace exactly when the
    last character of the text is. *)
Lemma squeeze_last_state b s :
  match squeeze is_space [32] b s with
  | [] => b
  | _ => is_space (last (squeeze is_space [32] b s) 0)
  end =
  match s with
  | [] => b
  | _ => is_space (last s 0)
  end.
Proof.
  revert b; induction s as [|c s IH]; intros b; [reflexivity|].
  cbn [squeeze]. destruct (is_space c) eqn:E.
  - destruct b.
    + rewrite (IH true). destruct s; [symmetry; exact E | reflexivity].
    + cbn [app]. specialize (IH true).
      destruct (squeeze is_space [32] true s) as [|d t] eqn:Es.
      * cbn [last]. destruct s; [rewrite E; reflexivity|].
        rewrite <- IH. reflexivity.
      * change (last (32 :: d :: t) 0) with (last (d :: t) 0).
        rewrite IH. destruct s; [discriminate Es | reflexivity].
  - specialize (IH false).
    destruct (squeeze is_space [32] false s) as [|d t] eqn:Es.
    + cbn [last]. destruct s; [reflexivity|].
      rewrite <- IH. exact E.
    + change (last (c :: d :: t) 0) with (last (d :: t) 0).
      rewrite IH. destruct s; [discriminate Es | reflexivity].
Qed.

(** X6: collapsing the pieces of a text and then the whole gives what
    collapsing the whole text gives. *)
Theorem collapse_whitespace_pieces a b :
  collapse_whitespace (collapse_whitespace a ++ collapse_whitespace b) =
  collapse_whitespace (a ++ b).
Proof.
  rewrite !collapse_whitespace_squeeze.
  rewrite (squeeze_app_state _ _ false a b).
  rewrite (squeeze_app_state _ _ false (squeeze is_space [32] false a)).
  rewrite (proj1 (squeeze_idem a)). f_equal.
  pose proof (squeeze_last_state false a) as Hl.
  destruct (squeeze is_space [32] false a) as [|d t] eqn:Ea.
  - destruct a as [|c a]; [apply squeeze_idem|].
    rewrite <- Hl. apply squeeze_idem.
  - rewrite Hl. destruct a as [|c a]; [discriminate Ea|].
    destruct (is_space (last (c :: a) 0)).
    + apply squeeze_true_squeeze.
    + apply squeeze_idem.
Qed.

(** *** What removing diacritics achieves *)

(** X7: the result of [remove_diacritics] holds no diacritic, and
    [remove_diacritics] leaves a text as it is exactly when the text
    holds none. *)
Theorem remove_diacritics_fixed_iff text :
  no_diacritic (remove_diacritics text) = true /\
  (remove_diacritics text = text <-> no_diacritic text = true).
Proof.
  rewrite remove_diacritics_filter.
  assert (H : no_diacritic (filter (fun c => negb (is_diacritic c)) text)
              = true).
  { apply Forall_forallb, filter_Forall_true. }
  split; [exact H|]. split.
  - intros E. rewrite E in H. exact H.
  - intros E. apply filter_all, forallb_Forall, E.
Qed.

(** X8: [remove_diacritics] works character by character: it distributes
    over concatenation and never lengthens a text. *)
Theorem remove_diacritics_app a b :
  remove_diacritics (a ++ b) = remove_diacritics a ++ remove_diacritics b /\
  (List.length (remove_diacritics a) <= List.length a)%nat.
Proof.
  rewrite !remove_diacritics_filter. split.
  - apply filter_app.
  - induction a as [|c a IH]; [apply Nat.le_refl|].
    cbn [filter]. destruct (negb (is_diacritic c)); cbn [List.length]; lia.
Qed.

(** *** Texts the tables do not touch *)

(** A pattern that ends with a literal character matches only where
    that character follows. *)
Lemma match_seq_last_literal atoms p prev s n :
  match_seq (atoms ++ [Literal p]) prev s = Some n -> In p s.
Proof.
  revert prev s n; induction atoms as [|a atoms IH]; intros prev s n.
  - cbn [app match_seq accepts]. destruct s as [|c s]; [discriminate|].
    destruct (c =? p) eqn:E; [|discriminate].
    apply Z.eqb_eq in E. intros _. left. exact E.
  - cbn [app].
    assert (Hstep : forall c s' k,
      option_map S (match_seq (atoms ++ [Literal p]) (Some c) s') = Some k ->
      In p (c :: s')).
    { intros c s' k H.
      destruct (match_seq (atoms ++ [Literal p]) (Some c) s') eqn:E;
        [|discriminate].
      right. exact (IH _ _ _ E). }
    destruct a as [|q|q|lo hi]; cbn [match_seq].
    + destruct (xorb _ _); [apply IH | discriminate].
    + destruct s as [|c s]; [discriminate|].
      destruct (accepts (Literal q) c); [apply Hstep | discriminate].
    + destruct s as [|c s]; [discriminate|].
      destruct (accepts (LiteralIgnore q) c); [apply Hstep | discriminate].
    + destruct s as [|c s]; [discriminate|].
      destruct (accepts (InRange lo hi) c); [apply Hstep | discriminate].
Qed.

Lemma re_sub_from_no_literal atoms p repl prev s :
  ~ In p s -> re_sub_from (Seq (atoms ++ [Literal p])) repl prev 0 s = s.
Proof.
  revert prev; induction s as [|c s IH]; intros prev H; [reflexivity|].
  cbn [re_sub_from re_match].
  destruct (match_seq (atoms ++ [Literal p]) prev (c :: s)) as [n|] eqn:E.
  - exfalso. apply H. exact (match_seq_last_literal _ _ _ _ _ E).
  - f_equal. apply IH. intros Hi. apply H. right. exact Hi.
Qed.

Lemma fold_abbreviations_no_stop (stems : list (str * str)) text :
  ~ In 46 text ->
  fold_left (fun text e => re_sub (fst e) (snd e) text)
    (map (fun x => (compile_abbreviation (fst x), snd x)) stems) text = text.
Proof.
  intros H; induction stems as [|x stems IH]; [reflexivity|].
  cbn [map fold_left fst snd]. unfold re_sub at 2, compile_abbreviation.
  rewrite app_comm_cons, re_sub_from_no_literal by exact H. exact IH.
Qed.

(** X9: every pattern of the English table ends with a full stop, so
    [expand_abbreviations] leaves a text without a full stop as it is,
    whatever the runtime. *)
Theorem expand_abbreviations_needs_stop text :
  ~ In 46 text -> expand_abbreviations text = text.
Proof.
  intros H. unfold expand_abbreviations, _abbreviations.
  apply fold_abbreviations_no_stop, H.
Qed.

(** X10: the loop over the Arabic table leaves a text as it is when the
    text holds the first letter of no key. *)
Theorem expand_arabic_needs_key_letter text :
  forallb (fun c => negb (key_letter c)) text = true ->
  expand_arabic text = text.
Proof.
  intros H.
  assert (Hk : forall k, key_letter k = true -> ~ In k text).
  { intros k Hk Hi. rewrite forallb_forall in H. apply H in Hi.
    rewrite Hk in Hi. discriminate. }
  unfold expand_arabic. rewrite ARABIC_ABBREVIATIONS_code_points.
  cbn [fold_left fst snd str_replace].
  repeat (rewrite (replace_from_absent _ _ _ text);
          [|apply Hk; reflexivity]).
  reflexivity.
Qed.

(** *** Blank texts *)

Lemma squeeze_blank s :
  forallb is_space s = true ->
  squeeze is_space [32] true s = [] /\
  squeeze is_space [32] false s = match s with [] => [] | _ => [32] end.
Proof.
  induction s as [|c s IH]; intros H; [split; reflexivity|].
  cbn [forallb] in H. apply andb_true_iff in H as [Hc H].
  destruct (IH H) as [IH1 _].
  cbn [squeeze]. rewrite Hc, IH1. split; reflexivity.
Qed.

(** X11: a text of ASCII whitespace only, the empty text included, is
    normalized to the empty text. *)
Theorem normalize_arabic_text_blank s :
  blank s = true -> normalize_arabic_text s = [].
Proof.
  intros H. unfold blank in H.
  assert (Ha : Forall (fun c => is_ascii c = true) s).
  { apply forallb_Forall in H. eapply Forall_impl; [|exact H].
    intros c Hc. apply andb_true_iff in Hc as [Hc _]. exact Hc. }
  assert (Hw : forallb is_space s = true).
  { apply Forall_forallb. apply forallb_Forall in H.
    eapply Forall_impl; [|exact H].
    intros c Hc. apply andb_true_iff in Hc as [_ Hc]. exact Hc. }
  unfold normalize_arabic_text.
  rewrite NFKC_inert.
  2:{ apply Forall_forallb. eapply Forall_impl; [|exact Ha].
      intros c Hc. unfold nfkc_inert. rewrite Hc. reflexivity. }
  rewrite remove_diacritics_filter, filter_all.
  2:{ eapply Forall_impl; [|exact Ha]. intros c Hc.
      unfold is_diacritic, is_ascii, in_range in *; lia. }
  rewrite expand_arabic_plain by exact Ha.
  rewrite re_sub_plus. change (lit " ") with [32].
  rewrite (proj2 (squeeze_blank s Hw)).
  destruct s; reflexivity.
Qed.

(** *** The ASCII pipelines *)

Lemma ascii_lower_space c : is_space (ascii_lower c) = is_space c.
Proof.
  unfold ascii_lower, ascii_upper, in_range.
  destruct ((65 <=? c) && (c <=? 90)) eqn:E; [|reflexivity].
  unfold is_space, in_range. lia.
Qed.

Lemma ascii_lower_idem c : ascii_lower (ascii_lower c) = ascii_lower c.
Proof.
  unfold ascii_lower, ascii_upper, in_range.
  destruct ((65 <=? c) && (c <=? 90)) eqn:E; [|rewrite E; reflexivity].
  replace ((65 <=? c + 32) && (c + 32 <=? 90)) with false by lia.
  reflexivity.
Qed.

Lemma ascii_lower_ascii c : is_ascii c = true -> is_ascii (ascii_lower c) = true.
Proof.
  unfold ascii_lower, ascii_upper, is_ascii, in_range.
  destruct ((65 <=? c) && (c <=? 90)) eqn:E; lia.
Qed.

Lemma ascii_lower_no_upper c : ascii_upper (ascii_lower c) = false.
Proof.
  unfold ascii_lower, ascii_upper, in_range.
  destruct ((65 <=? c) && (c <=? 90)) eqn:E; lia.
Qed.

Lemma map_lower_squeeze b s :
  map ascii_lower (squeeze is_space [32] b s) =
  squeeze is_space [32] b (map ascii_lower s).
Proof.
  revert b; induction s as [|c s IH]; intros b; [reflexivity|].
  cbn [map squeeze]. rewrite ascii_lower_space.
  destruct (is_space c); [destruct b|]; cbn [map app]; rewrite IH;
    reflexivity.
Qed.

(** On ASCII text [basic_cleaners] is ASCII lower-casing followed by the
    squeeze of whitespace runs; the result is ASCII again. *)
Lemma basic_cleaners_ascii s :
  forallb is_ascii s = true ->
  basic_cleaners s = squeeze is_space [32] false (map ascii_lower s) /\
  forallb is_ascii (basic_cleaners s) = true.
Proof.
  intros H. unfold basic_cleaners, lowercase.
  rewrite lower_ascii by exact H. rewrite collapse_whitespace_squeeze.
  split; [reflexivity|].
  apply Forall_forallb, squeeze_Forall; [repeat constructor|].
  apply Forall_forall. intros c Hc. apply in_map_iff in Hc as (d & <- & Hd).
  apply ascii_lower_ascii. rewrite forallb_forall in H. exact (H d Hd).
Qed.

Lemma map_lower_idem s : map ascii_lower (map ascii_lower s) = map ascii_lower s.
Proof.
  rewrite map_map. apply map_ext. intros c. apply ascii_lower_idem.
Qed.

Lemma squeeze_lower_no_upper b s :
  existsb ascii_upper (squeeze is_space [32] b (map ascii_lower s)) = false.
Proof.
  revert b; induction s as [|c s IH]; intros b; [reflexivity|].
  cbn [map squeeze]. destruct (is_space (ascii_lower c)).
  - destruct b; [apply IH|]. cbn [app existsb]. rewrite IH. reflexivity.
  - cbn [existsb]. rewrite ascii_lower_no_upper, IH. reflexivity.
Qed.

(** X12: on ASCII text the result of [basic_cleaners] holds no capital
    letter, and [basic_cleaners] applied to it changes nothing. *)
Theorem basic_cleaners_idempotent_ascii s :
  forallb is_ascii s = true ->
  existsb ascii_upper (basic_cleaners s) = false /\
  basic_cleaners (basic_cleaners s) = basic_cleaners s.
Proof.
  intros H. destruct (basic_cleaners_ascii s H) as [E Ha].
  destruct (basic_cleaners_ascii _ Ha) as [E2 _].
  rewrite E2, E. split; [apply squeeze_lower_no_upper|].
  rewrite map_lower_squeeze, map_lower_idem. apply squeeze_idem.
Qed.

(** What is known of [unidecode]: it writes ASCII, and it leaves ASCII
    text alone. *)
Hypothesis unidecode_ascii :
  forall s, forallb is_ascii (unidecode s) = true.
Hypothesis unidecode_fix :
  forall s, forallb is_ascii s = true -> unidecode s = s.

(** X13: whatever the text, the result of [transliteration_cleaners] is
    ASCII and holds no capital letter. *)
Theorem transliteration_cleaners_ascii_lowercase text :
  forallb is_ascii (transliteration_cleaners text) = true /\
  existsb ascii_upper (transliteration_cleaners text) = false.
Proof.
  change (transliteration_cleaners text)
    with (basic_cleaners (convert_to_ascii text)).
  unfold convert_to_ascii.
  destruct (basic_cleaners_ascii _ (unidecode_ascii text)) as [E Ha].
  split; [exact Ha|]. rewrite E. apply squeeze_lower_no_upper.
Qed.

(** X14: [transliteration_cleaners] is idempotent. *)
Theorem transliteration_cleaners_idempotent text :
  transliteration_cleaners (transliteration_cleaners text) =
  transliteration_cleaners text.
Proof.
  change (transliteration_cleaners (transliteration_cleaners text))
    with (basic_cleaners
            (convert_to_ascii (basic_cleaners (convert_to_ascii text)))).
  change (transliteration_cleaners text)
    with (basic_cleaners (convert_to_ascii text)).
  unfold convert_to_ascii.
  destruct (basic_cleaners_ascii _ (unidecode_ascii text)) as [E Ha].
  rewrite (unidecode_fix _ Ha).
  destruct (basic_cleaners_ascii _ Ha) as [E2 _].
  rewrite E2, E.
  rewrite map_lower_squeeze, map_lower_idem. apply squeeze_idem.
Qed.

(** *** How the entries of the tables meet *)

(** X15: the first entry of the Arabic table takes the last two
    characters of U+0623 U+002E U+062F U+002E before the second entry
    sees its key, so the abbreviation written with its closing full stop
    comes out as the second entry's expansion followed by the last four
    letters of the first entry's; the texts around are expanded on their
    own. *)
Theorem expand_arabic_professor_stop pre post :
  expand_arabic (pre ++ lit "أ.د." ++ post) =
  expand_arabic pre ++ lit "أستاذ دكتوركتور" ++ expand_arabic post.
Proof.
  unfold expand_arabic. rewrite ARABIC_ABBREVIATIONS_code_points.
  change (lit "أ.د.") with [1571; 46; 1583; 46].
  change (lit "أستاذ دكتوركتور")
    with [1571; 1587; 1578; 1575; 1584; 32; 1583; 1603; 1578; 1608; 1585;
          1603; 1578; 1608; 1585].
  cbn [fold_left fst snd str_replace app].
  split_scan replace_from_barrier. cbn.
  split_scan replace_from_barrier. cbn.
  split_scan replace_from_barrier. cbn.
  split_scan replace_from_barrier. cbn.
  split_scan replace_from_barrier. cbn.
  split_scan replace_from_barrier. cbn.
  reflexivity.
Qed.

Lemma single_spaced_squeeze_app b u rest :
  single_spaced b u = true ->
  squeeze is_space [32] b (u ++ rest) = u ++ squeeze is_space [32] false rest.
Proof.
  revert b; induction u as [|c u IH]; intros b H.
  - destruct b; [discriminate | reflexivity].
  - cbn [single_spaced] in H. cbn [app squeeze].
    destruct (c =? 32) eqn:E.
    + apply Z.eqb_eq in E; subst c.
      apply andb_true_iff in H as [Hb H].
      replace (is_space 32) with true by reflexivity.
      destruct b; [discriminate|]. cbn [app]. now rewrite (IH true).
    + apply andb_true_iff in H as [Hl H].
      replace (is_space c) with false
        by (unfold ascii_letter, is_space, in_range in *; lia).
      now rewrite (IH false).
Qed.

Lemma plain_words_head u :
  plain_words u = true ->
  exists c u', u = c :: u' /\ is_space c = false /\
               single_spaced false u' = true.
Proof.
  unfold plain_words. destruct u as [|c u]; [discriminate|].
  cbn [single_spaced]. destruct (c =? 32) eqn:E; [discriminate|].
  intros H. apply andb_true_iff in H as [Hl H].
  exists c, u. repeat split; [|exact H].
  unfold ascii_letter, is_space, in_range in *; lia.
Qed.

(** X16: between two texts of plain words, a double quote with a space
    on either side leaves its two spaces side by side in the result of
    [normalize_arabic_text]: the quote is removed after the whitespace
    has been collapsed. *)
Theorem normalize_arabic_text_quote_between_spaces u v :
  plain_words u = true -> plain_words v = true ->
  normalize_arabic_text (u ++ [32; dquote; 32] ++ v) = u ++ [32; 32] ++ v.
Proof.
  intros Hu Hv. unfold normalize_arabic_text.
  assert (Hall : forall f : char -> bool,
             (forall c, (c =? 32) || ascii_letter c = true -> f c = true) ->
             f dquote = true ->
             Forall (fun c => f c = true) (u ++ [32; dquote; 32] ++ v)).
  { intros f Hf Hq. apply Forall_app; split;
      [exact (single_spaced_all f true u Hf Hu)|].
    apply Forall_app; split;
      [|exact (single_spaced_all f true v Hf Hv)].
    repeat constructor; auto. }
  rewrite NFKC_inert.
  2:{ apply Forall_forallb, Hall; [|reflexivity]. intros c Hc.
      unfold nfkc_inert, is_ascii, ascii_letter, in_range in *; lia. }
  rewrite remove_diacritics_filter, filter_all.
  2:{ apply Hall; [|reflexivity]. intros c Hc.
      unfold is_diacritic, ascii_letter, in_range in *; lia. }
  rewrite expand_arabic_plain.
  2:{ apply Hall; [|reflexivity]. intros c Hc.
      unfold is_ascii, ascii_letter, in_range in *; lia. }
  rewrite re_sub_plus. change (lit " ") with [32].
  destruct (plain_words_head u Hu) as (c & u' & -> & Hc & Hu').
  cbn [app squeeze]. rewrite Hc.
  rewrite (single_spaced_squeeze_app false u' _ Hu').
  cbn [app squeeze].
  replace (is_space 32) with true by reflexivity.
  replace (is_space dquote) with false by reflexivity.
  cbn [app]. rewrite (single_spaced_squeeze true v Hv).
  cbn [str_replace]. rewrite replace_from_delete.
  change (c :: u' ++ 32 :: dquote :: 32 :: v)
    with ((c :: u') ++ [32; dquote; 32] ++ v).
  rewrite !filter_app.
  rewrite (filter_all _ (c :: u')), (filter_all _ v).
  2,3: eapply single_spaced_all; [|eassumption]; intros x Hx;
       unfold dquote, ascii_letter, in_range in *; lia.
  change (filter (fun c0 => negb (c0 =? dquote)) [32; dquote; 32])
    with [32; 32].
  unfold strip. cbn [app lstrip]. rewrite Hc.
  change (c :: u' ++ 32 :: 32 :: v) with ((c :: u') ++ [32; 32] ++ v).
  rewrite (app_assoc (c :: u')).
  rewrite rstrip_app; rewrite (single_spaced_rstrip true v Hv);
    [reflexivity|].
  destruct v; discriminate.
Qed.

Lemma abbreviation_stems_table :
  _abbreviations =
  map (fun x => (compile_abbreviation (fst x), snd x)) abbreviation_stems.
Proof. reflexivity. Qed.

(** X17: no entry of the English table is shadowed by another.  Every
    stem followed by a full stop, in lower case and in capitals, is
    expanded to the word of its own entry. *)
Theorem expand_abbreviations_every_stem :
  Forall (fun e =>
            expand_abbreviations (fst e ++ lit ".") = snd e /\
            expand_abbreviations (map ascii_to_upper (fst e) ++ lit ".")
              = snd e)
         abbreviation_stems.
Proof.
  unfold abbreviation_stems.
  repeat (apply Forall_cons; [split|]); [..|apply Forall_nil];
    cbn [fst snd]; rewrite expand_abbreviations_ascii by reflexivity;
    vm_compute; reflexivity.
Qed.

(** X18: every key of the Arabic table, given alone, is normalized to
    the value of its own entry. *)
Theorem normalize_arabic_text_every_key :
  Forall (fun e => normalize_arabic_text (fst e) = snd e)
         ARABIC_ABBREVIATIONS.
Proof.
  rewrite ARABIC_ABBREVIATIONS_code_points.
  repeat (apply Forall_cons; [|]); [..|apply Forall_nil];
    cbn [fst snd]; unfold normalize_arabic_text;
    rewrite NFKC_inert by reflexivity; vm_compute; reflexivity.
Qed.

(** *** Texts in pieces *)

Lemma existsb_eqb_not_In c l : existsb (Z.eqb c) l = false -> ~ In c l.
Proof.
  intros H Hi. assert (E : existsb (Z.eqb c) l = true).
  { apply existsb_exists. exists c. split; [exact Hi | apply Z.eqb_refl]. }
  congruence.
Qed.

Lemma replace_from_separator o old new a c b :
  ~ In c (o :: old) ->
  replace_from (o :: old) new 0 (a ++ c :: b) =
  replace_from (o :: old) new 0 a ++ c :: replace_from (o :: old) new 0 b.
Proof.
  intros H.
  rewrite replace_from_barrier;
    [|intros Hi; apply H; right; exact Hi | apply Nat.le_0_l].
  f_equal. cbn [replace_from starts_with].
  destruct (o =? c) eqn:E; [|reflexivity].
  apply Z.eqb_eq in E. exfalso. apply H. left. exact E.
Qed.

Lemma fold_str_replace_separator (table : list (str * str)) a c b :
  Forall (fun e => fst e <> [] /\ ~ In c (fst e)) table ->
  fold_left (fun text e => str_replace (fst e) (snd e) text) table
    (a ++ c :: b) =
  fold_left (fun text e => str_replace (fst e) (snd e) text) table a
    ++ c ::
  fold_left (fun text e => str_replace (fst e) (snd e) text) table b.
Proof.
  intros H; revert a b; induction H as [|e table [Hn Hc] Ht IH]; intros a b;
    [reflexivity|].
  cbn [fold_left]. destruct (fst e) as [|o old] eqn:E; [contradiction|].
  cbn [str_replace]. rewrite replace_from_separator by exact Hc. apply IH.
Qed.

(** X19: a character that stands in no key of the Arabic table, such as
    the space, cuts the text in two for the loop over the table: the
    two parts are expanded on their own. *)
Theorem expand_arabic_separator a c b :
  in_no_key c = true ->
  expand_arabic (a ++ c :: b) = expand_arabic a ++ c :: expand_arabic b.
Proof.
  intros H. unfold expand_arabic. apply fold_str_replace_separator.
  unfold in_no_key in H. rewrite forallb_forall in H.
  apply Forall_forall. intros e He. split.
  - rewrite ARABIC_ABBREVIATIONS_code_points in He. cbn [In] in He.
    repeat (destruct He as [<- | He]; [discriminate|]). contradiction.
  - apply existsb_eqb_not_In, negb_true_iff, H, He.
Qed.

(** Atoms that consume a character each. *)
Lemma match_seq_length atoms prev s n :
  match_seq atoms prev s = Some n -> (n <= List.length s)%nat.
Proof.
  revert prev s n; induction atoms as [|a atoms IH]; intros prev s n.
  - cbn [match_seq]. intros H; injection H as <-. apply Nat.le_0_l.
  - assert (Hstep : forall c s',
      option_map S (match_seq atoms (Some c) s') = Some n ->
      (n <= List.length (c :: s'))%nat).
    { intros c s' H.
      destruct (match_seq atoms (Some c) s') as [m|] eqn:E; [|discriminate].
      injection H as <-. apply IH in E. cbn [List.length]. lia. }
    destruct a as [|q|q|lo hi]; cbn [match_seq].
    + destruct (xorb _ _); [apply IH | discriminate].
    + destruct s as [|c s]; [discriminate|].
      destruct (accepts (Literal q) c); [apply Hstep | discriminate].
    + destruct s as [|c s]; [discriminate|].
      destruct (accepts (LiteralIgnore q) c); [apply Hstep | discriminate].
    + destruct s as [|c s]; [discriminate|].
      destruct (accepts (InRange lo hi) c); [apply Hstep | discriminate].
Qed.

(** A match of consuming atoms does not look past its end, and does not
    pass a character that every atom refuses. *)
Lemma match_seq_cut lits prev x c y :
  forallb (fun a => match a with WordBoundary => false | _ => true end) lits
    = true ->
  forallb (fun a => negb (accepts a c)) lits = true ->
  match_seq lits prev (x ++ c :: y) = match_seq lits prev x \/
  (lits = [] /\ match_seq lits prev (x ++ c :: y) = Some 0%nat).
Proof.
  revert prev x; induction lits as [|a lits IH]; intros prev x Hb Hr.
  - right. split; reflexivity.
  - left. cbn [forallb] in Hb, Hr.
    apply andb_true_iff in Hb as [Ha Hb]. apply andb_true_iff in Hr as [Hc Hr].
    apply negb_true_iff in Hc.
    assert (Hstep : forall d x',
      option_map S (match_seq lits (Some d) (x' ++ c :: y)) =
      option_map S (match_seq lits (Some d) x')).
    { intros d x'. destruct (IH (Some d) x' Hb Hr) as [-> | [-> _]];
        reflexivity. }
    destruct a as [|q|q|lo hi]; [discriminate| | |];
      (destruct x as [|d x]; cbn [app match_seq];
       [rewrite Hc; reflexivity | rewrite Hstep; reflexivity]).
Qed.

Lemma match_seq_prev atoms p1 p2 s :
  is_word_opt p1 = is_word_opt p2 ->
  match_seq atoms p1 s = match_seq atoms p2 s.
Proof.
  revert p1 p2 s; induction atoms as [|a atoms IH]; intros p1 p2 s H;
    [reflexivity|].
  destruct a; cbn [match_seq]; try reflexivity.
  rewrite H, (IH p1 p2 s H). reflexivity.
Qed.

Lemma re_sub_from_prev r repl p1 p2 s :
  is_word_opt p1 = is_word_opt p2 ->
  re_sub_from r repl p1 0 s = re_sub_from r repl p2 0 s.
Proof.
  intros H. destruct s as [|c s]; [reflexivity|].
  cbn [re_sub_from].
  replace (re_match r p1 (c :: s)) with (re_match r p2 (c :: s));
    [reflexivity|].
  destruct r; cbn [re_match]; [|reflexivity].
  symmetry. apply match_seq_prev, H.
Qed.

(** For a pattern that begins at a word boundary and goes on with
    consuming atoms, a character that is no word character and that
    every atom refuses cuts the text in two. *)
Lemma re_sub_from_separator lits repl c b :
  forallb (fun a => match a with WordBoundary => false | _ => true end) lits
    = true ->
  forallb (fun a => negb (accepts a c)) lits = true ->
  is_word c = false ->
  forall a prev k, (k <= List.length a)%nat ->
    re_sub_from (Seq (WordBoundary :: lits)) repl prev k (a ++ c :: b) =
    re_sub_from (Seq (WordBoundary :: lits)) repl prev k a
      ++ c :: re_sub (Seq (WordBoundary :: lits)) repl b.
Proof.
  intros Hb Hr Hw.
  assert (Hend : forall prev,
    re_sub_from (Seq (WordBoundary :: lits)) repl prev 0 (c :: b) =
    c :: re_sub (Seq (WordBoundary :: lits)) repl b).
  { intros prev. cbn [re_sub_from re_match match_seq hd_error].
    assert (Hm : match_seq lits prev (c :: b) = None \/
                 match_seq lits prev (c :: b) = Some 0%nat).
    { destruct lits as [|l lits]; [right; reflexivity|]. left.
      cbn [forallb] in Hr. apply andb_true_iff in Hr as [Hl _].
      apply negb_true_iff in Hl.
      destruct l; cbn [match_seq]; try discriminate; rewrite Hl; reflexivity. }
    unfold re_sub.
    rewrite (re_sub_from_prev _ _ (Some c) None b)
      by (cbn [is_word_opt]; exact Hw).
    destruct (xorb _ _); [|reflexivity].
    destruct Hm as [-> | ->]; reflexivity. }
  induction a as [|d a IH]; intros prev k Hk.
  - cbn [List.length] in Hk. replace k with 0%nat by lia. apply Hend.
  - destruct k as [|k]; cbn [app re_sub_from];
      [|apply IH; cbn [List.length] in Hk; lia].
    assert (Hm : re_match (Seq (WordBoundary :: lits)) prev (d :: a ++ c :: b)
                 = re_match (Seq (WordBoundary :: lits)) prev (d :: a) \/
                 lits = []).
    { cbn [re_match match_seq hd_error].
      destruct (match_seq_cut lits prev (d :: a) c b Hb Hr) as [E | [E _]].
      - left. cbn [app] in E. rewrite E. reflexivity.
      - right. exact E. }
    destruct Hm as [-> | ->].
    + destruct (re_match (Seq (WordBoundary :: lits)) prev (d :: a))
        as [[|n]|] eqn:E; cbn [app]; try (f_equal; apply IH; lia).
      rewrite <- app_assoc. f_equal. apply IH.
      cbn [re_match] in E. apply match_seq_length in E.
      cbn [List.length] in E. lia.
    + cbn [re_match match_seq hd_error app].
      destruct (xorb (is_word_opt prev) (is_word_opt (Some d))); cbn [app];
        f_equal; apply IH; lia.
Qed.

Lemma forallb_map_atoms (f : atom -> bool) (g : char -> atom) l :
  forallb f (map g l) = forallb (fun x => f (g x)) l.
Proof.
  induction l as [|x l IH]; [reflexivity|].
  cbn [map forallb]. rewrite IH. reflexivity.
Qed.

Lemma separator_refused c stem :
  separator c = true ->
  forallb (in_range 97 122) stem = true ->
  forallb (fun a => negb (accepts a c)) (map LiteralIgnore stem ++ [Literal 46])
    = true.
Proof.
  intros Hc Hs. unfold separator in Hc.
  apply andb_true_iff in Hc as [Hc H46]. apply andb_true_iff in Hc as [Hc H95].
  apply andb_true_iff in Hc as [Ha Hn].
  rewrite forallb_app. apply andb_true_iff. split.
  - rewrite forallb_map_atoms. rewrite forallb_forall in Hs |- *.
    intros p Hp. specialize (Hs p Hp).
    cbn [accepts]. unfold ignore_eq. rewrite tolower_ascii by exact Ha.
    unfold ascii_lower, ascii_upper, case_fix, ascii_alnum, ascii_letter,
      is_ascii, in_range in *.
    destruct ((65 <=? c) && (c <=? 90)) eqn:E; lia.
  - cbn [forallb accepts]. rewrite andb_true_r. exact H46.
Qed.

Lemma separator_no_word c : separator c = true -> is_word c = false.
Proof.
  intros Hc. unfold separator in Hc.
  apply andb_true_iff in Hc as [Hc H46]. apply andb_true_iff in Hc as [Hc H95].
  apply andb_true_iff in Hc as [Ha Hn].
  unfold is_word. rewrite isalnum_ascii by exact Ha.
  apply negb_true_iff in Hn, H95. rewrite Hn, H95. reflexivity.
Qed.

Lemma fold_abbreviations_separator (stems : list (str * str)) a c b :
  separator c = true ->
  forallb (fun x => forallb (in_range 97 122) (fst x)) stems = true ->
  fold_left (fun text e => re_sub (fst e) (snd e) text)
    (map (fun x => (compile_abbreviation (fst x), snd x)) stems)
    (a ++ c :: b) =
  fold_left (fun text e => re_sub (fst e) (snd e) text)
    (map (fun x => (compile_abbreviation (fst x), snd x)) stems) a
    ++ c ::
  fold_left (fun text e => re_sub (fst e) (snd e) text)
    (map (fun x => (compile_abbreviation (fst x), snd x)) stems) b.
Proof.
  intros Hc; revert a b; induction stems as [|x stems IH]; intros a b Hs;
    [reflexivity|].
  cbn [forallb] in Hs. apply andb_true_iff in Hs as [Hx Hs].
  cbn [map fold_left fst snd]. unfold re_sub at 2, compile_abbreviation.
  rewrite re_sub_from_separator.
  - apply IH, Hs.
  - rewrite forallb_app, forallb_map_atoms. cbn [forallb].
    rewrite andb_true_r. apply forallb_forall. reflexivity.
  - apply separator_refused; assumption.
  - apply separator_no_word, Hc.
  - apply Nat.le_0_l.
Qed.

(** X20: the space, the comma and every other ASCII character that is
    neither a word character nor the full stop cuts the text in two for
    [expand_abbreviations]: the two parts are expanded on their own. *)
Theorem expand_abbreviations_separator a c b :
  separator c = true ->
  expand_abbreviations (a ++ c :: b) =
  expand_abbreviations a ++ c :: expand_abbreviations b.
Proof.
  intros Hc. unfold expand_abbreviations.
  rewrite abbreviation_stems_table.
  apply fold_abbreviations_separator; [exact Hc | reflexivity].
Qed.

(** *** Stems inside words *)

Lemma glued_unchanged_ascii_all :
  forallb (@glued_unchanged ascii_runtime) (seq 0 128) = true.
Proof. vm_compute. reflexivity. Qed.

(** X21: a stem of the English table that follows an ASCII letter, digit
    or underscore directly is not expanded: the stem with its full stop
    stays as it is. *)
Theorem expand_abbreviations_glued c :
  ascii_word c = true ->
  Forall (fun e => expand_abbreviations (glued c (fst e)) = glued c (fst e))
         abbreviation_stems.
Proof.
  intros Hc.
  assert (Ha : is_ascii c = true).
  { unfold ascii_word, ascii_alnum, ascii_letter, is_ascii, in_range in *.
    lia. }
  assert (Hn : In (Z.to_nat c) (seq 0 128)).
  { apply in_seq. unfold is_ascii, in_range in Ha. lia. }
  pose proof glued_unchanged_ascii_all as Hall.
  rewrite forallb_forall in Hall. specialize (Hall _ Hn).
  unfold glued_unchanged in Hall.
  rewrite Z2Nat.id in Hall by (unfold is_ascii, in_range in Ha; lia).
  rewrite Hc in Hall. cbn [negb orb] in Hall.
  rewrite forallb_forall in Hall.
  apply Forall_forall. intros e He. specialize (Hall e He).
  destruct (list_eq_dec Z.eq_dec _ _) as [E|]; [|discriminate].
  rewrite expand_abbreviations_ascii; [exact E|].
  unfold glued. cbn [forallb]. rewrite Ha, forallb_app. cbn [andb].
  assert (Hs : forallb (fun x => forallb is_ascii (fst x)) abbreviation_stems
               = true) by reflexivity.
  rewrite forallb_forall in Hs. rewrite (Hs e He). reflexivity.
Qed.

End Properties.

(** ** The statements at the ASCII runtime

    Each statement above that rests on an assumption, applied where the
    assumption is met. *)

Lemma basic_cleaners_hello_world_ascii :
  @basic_cleaners ascii_runtime (lit "HELLO   WORLD") = lit "hello world" /\
  forall text,
    @basic_cleaners ascii_runtime text =
    @collapse_whitespace ascii_runtime (@lowercase ascii_runtime text).
Proof.
  apply (@basic_cleaners_hello_world ascii_runtime).
  intros s _. reflexivity.
Defined.

Lemma expand_abbreviations_dr_mrs_ascii :
  @expand_abbreviations ascii_runtime (lit "Dr. Smith and Mrs. Jones") =
    lit "doctor Smith and misess Jones" /\
  @expand_abbreviations ascii_runtime (lit "DR. WHO") = lit "doctor WHO" /\
  @expand_abbreviations ascii_runtime (lit "dr. who") = lit "doctor who" /\
  @expand_abbreviations ascii_runtime (lit "padr. who") = lit "padr. who".
Proof.
  apply (@expand_abbreviations_dr_mrs ascii_runtime);
    intros c _; reflexivity.
Defined.

Lemma normalize_arabic_text_not_idempotent_ascii :
  @normalize_arabic_text ascii_runtime (lit "دولار") = lit "دولار أمريكي" /\
  @normalize_arabic_text ascii_runtime
    (@normalize_arabic_text ascii_runtime (lit "دولار")) =
    lit "دولار أمريكي أمريكي" /\
  @normalize_arabic_text ascii_runtime
    (@normalize_arabic_text ascii_runtime (lit "دولار")) <>
    @normalize_arabic_text ascii_runtime (lit "دولار").
Proof.
  apply (@normalize_arabic_text_not_idempotent ascii_runtime).
  intros s _. reflexivity.
Defined.

Lemma normalize_arabic_text_quoted_gap_ascii :
  @normalize_arabic_text ascii_runtime quoted_gap = [97; 32; 32; 98] /\
  no_space_run (@normalize_arabic_text ascii_runtime quoted_gap) = false.
Proof.
  apply (@normalize_arabic_text_quoted_gap ascii_runtime).
  intros s _. reflexivity.
Defined.

Lemma english_cleaners_keeps_case_hello :
  plain_words (lit "Hello World") = true /\
  @english_cleaners ascii_runtime (lit "Hello World") = lit "Hello World" /\
  (existsb ascii_upper (lit "Hello World") = true ->
   @english_cleaners ascii_runtime (lit "Hello World") <>
   @basic_cleaners ascii_runtime (lit "Hello World")).
Proof.
  split; [reflexivity|].
  apply (@english_cleaners_keeps_case ascii_runtime);
    try (intros s _; reflexivity).
  reflexivity.
Defined.

Lemma arabic_kg_expanded_inside_word :
  @remove_diacritics ascii_runtime
    (@unicodedata_normalize_NFKC ascii_runtime (lit "abكجمcd")) =
    lit "ab" ++ lit "كجم" ++ lit "cd" /\
  @normalize_arabic_text ascii_runtime (lit "abكجمcd") =
    lstrip (@tidy ascii_runtime (expand_arabic (lit "ab")))
      ++ lit "كيلوغرام"
      ++ rstrip (@tidy ascii_runtime (after_kg (lit "cd"))).
Proof.
  split; [reflexivity|].
  apply (@arabic_kg_expanded ascii_runtime (lit "abكجمcd") (lit "ab") (lit "cd")).
  reflexivity.
Defined.

Lemma arabic_kg_examples_ascii :
  @normalize_arabic_text ascii_runtime (lit "5 كجم") = lit "5 كيلوغرام" /\
  @normalize_arabic_text ascii_runtime (lit "abكجمcd") = lit "abكيلوغرامcd" /\
  @normalize_arabic_text ascii_runtime (lit "كجم.") = lit "كيلوغرامهندس" /\
  @normalize_arabic_text ascii_runtime (lit "  مرحبا  ") = lit "مرحبا".
Proof.
  apply (@arabic_kg_examples ascii_runtime).
  intros s _. reflexivity.
Defined.

(** ** The further statements at the ASCII runtime *)

Lemma ascii_runtime_unidecode_ascii s :
  forallb is_ascii (@unidecode ascii_runtime s) = true.
Proof. apply Forall_forallb, filter_Forall_true. Qed.

Lemma ascii_runtime_unidecode_fix s :
  forallb is_ascii s = true -> @unidecode ascii_runtime s = s.
Proof. intros H. apply filter_all, forallb_Forall, H. Qed.

Lemma expand_abbreviations_needs_stop_ascii :
  ~ In 46 (lit "Dr Smith") /\
  @expand_abbreviations ascii_runtime (lit "Dr Smith") = lit "Dr Smith".
Proof.
  assert (H : ~ In 46 (lit "Dr Smith")).
  { intros Hi. cbn in Hi. intuition discriminate. }
  split; [exact H|].
  exact (@expand_abbreviations_needs_stop ascii_runtime (lit "Dr Smith") H).
Defined.

Lemma expand_arabic_needs_key_letter_hello :
  forallb (fun c => negb (key_letter c)) (lit "hello") = true /\
  expand_arabic (lit "hello") = lit "hello".
Proof.
  split; [reflexivity|].
  apply (expand_arabic_needs_key_letter (lit "hello")). reflexivity.
Defined.

Lemma normalize_arabic_text_blank_ascii :
  blank [32; 9; 10; 32] = true /\
  @normalize_arabic_text ascii_runtime [32; 9; 10; 32] = [].
Proof.
  split; [reflexivity|].
  apply (@normalize_arabic_text_blank ascii_runtime);
    [intros s _; reflexivity | reflexivity].
Defined.

Lemma basic_cleaners_idempotent_ascii_hello :
  forallb is_ascii (lit "Hello   World") = true /\
  existsb ascii_upper (@basic_cleaners ascii_runtime (lit "Hello   World"))
    = false /\
  @basic_cleaners ascii_runtime
    (@basic_cleaners ascii_runtime (lit "Hello   World")) =
  @basic_cleaners ascii_runtime (lit "Hello   World").
Proof.
  split; [reflexivity|].
  apply (@basic_cleaners_idempotent_ascii ascii_runtime);
    [intros s _; reflexivity | reflexivity].
Defined.

Lemma transliteration_cleaners_ascii_lowercase_cafe :
  forallb is_ascii (@transliteration_cleaners ascii_runtime (lit "Café  Olé"))
    = true /\
  existsb ascii_upper (@transliteration_cleaners ascii_runtime (lit "Café  Olé"))
    = false.
Proof.
  apply (@transliteration_cleaners_ascii_lowercase ascii_runtime).
  - intros s _; reflexivity.
  - exact ascii_runtime_unidecode_ascii.
Defined.

Lemma transliteration_cleaners_idempotent_cafe :
  @transliteration_cleaners ascii_runtime
    (@transliteration_cleaners ascii_runtime (lit "Café  Olé")) =
  @transliteration_cleaners ascii_runtime (lit "Café  Olé").
Proof.
  apply (@transliteration_cleaners_idempotent ascii_runtime).
  - intros s _; reflexivity.
  - exact ascii_runtime_unidecode_ascii.
  - exact ascii_runtime_unidecode_fix.
Defined.

Lemma normalize_arabic_text_quote_between_spaces_say_hi :
  plain_words (lit "say") = true /\ plain_words (lit "hi") = true /\
  @normalize_arabic_text ascii_runtime
    (lit "say" ++ [32; dquote; 32] ++ lit "hi") =
  lit "say" ++ [32; 32] ++ lit "hi".
Proof.
  split; [reflexivity|]. split; [reflexivity|].
  apply (@normalize_arabic_text_quote_between_spaces ascii_runtime);
    [intros s _; reflexivity | reflexivity | reflexivity].
Defined.

Lemma expand_abbreviations_every_stem_ascii :
  Forall (fun e =>
            @expand_abbreviations ascii_runtime (fst e ++ lit ".") = snd e /\
            @expand_abbreviations ascii_runtime
              (map ascii_to_upper (fst e) ++ lit ".") = snd e)
         abbreviation_stems.
Proof.
  apply (@expand_abbreviations_every_stem ascii_runtime);
    intros c _; reflexivity.
Defined.

Lemma normalize_arabic_text_every_key_ascii :
  Forall (fun e => @normalize_arabic_text ascii_runtime (fst e) = snd e)
         ARABIC_ABBREVIATIONS.
Proof.
  apply (@normalize_arabic_text_every_key ascii_runtime).
  intros s _; reflexivity.
Defined.

Lemma expand_arabic_separator_space :
  in_no_key 32 = true /\
  expand_arabic (lit "5 كجم" ++ 32 :: lit "3 كم") =
  expand_arabic (lit "5 كجم") ++ 32 :: expand_arabic (lit "3 كم").
Proof.
  split; [reflexivity|].
  apply (expand_arabic_separator (lit "5 كجم") 32 (lit "3 كم")). reflexivity.
Defined.

Lemma expand_abbreviations_separator_space :
  separator 32 = true /\
  @expand_abbreviations ascii_runtime (lit "Dr." ++ 32 :: lit "Smith") =
  @expand_abbreviations ascii_runtime (lit "Dr.")
    ++ 32 :: @expand_abbreviations ascii_runtime (lit "Smith").
Proof.
  split; [reflexivity|].
  apply (@expand_abbreviations_separator ascii_runtime);
    [intros c _; reflexivity | intros c _; reflexivity | reflexivity].
Defined.

Lemma expand_abbreviations_glued_x :
  ascii_word 120 = true /\
  Forall (fun e =>
            @expand_abbreviations ascii_runtime (glued 120 (fst e)) =
            glued 120 (fst e))
         abbreviation_stems.
Proof.
  split; [reflexivity|].
  apply (@expand_abbreviations_glued ascii_runtime);
    [intros c _; reflexivity | intros c _; reflexivity | reflexivity].
Defined.
